(** * Search agents over implicit graphs: BFS, bounded DFS and A*

    A shallow embedding of the notebooks' [Problem] interface, of the three
    search procedures ([BFSAgent.bfs], [DFSAgent.dfs], [astar]) and of the two
    concrete problems ([VacuumProblem], [PuzzleProblem]), followed by the
    properties established about them.

    Conventions of the embedding:
    - an action is a Python string, here a [string];
    - a Python [set] of states is a [gset State];
    - a Python exception is a [Raise] outcome; a loop that may run forever
      is a function with a fuel argument, whose exhaustion is [Timeout];
    - costs and heuristic values are natural numbers, as in every problem of
      the notebooks ([action_cost] returns [1], heuristics return counts). *)

From Stdlib Require Import ZArith Lia.
From stdpp Require Import base option list gmap sets strings numbers.

Set Default Proof Using "Type".

(** ** Outcomes of a Python call *)

Inductive exn : Set :=
  | IndexError      (* list index out of range *)
  | ProblemError.   (* an exception raised inside the Problem's do_action *)

Inductive outcome (A : Type) : Type :=
  | Ret (a : A)
  | Raise (e : exn)
  | Timeout.
Arguments Ret {A} a.
Arguments Raise {A} e.
Arguments Timeout {A}.

Definition Action := string.

(** Python truth value of [route] in [if route:], where [route] is [None]
    or a list. *)
Definition truthy {A} (route : option (list A)) : bool :=
  match route with
  | Some (_ :: _) => true
  | _ => false
  end.

(** ** The Problem interface *)

Section Search.
Context {State : Type} `{Countable State}.

Record Problem := MkProblem {
  initial_state : State;
  available_actions : State → list Action;
  do_action : State → Action → option State;   (* [None]: the call raises *)
  is_goal : State → bool;
  action_cost : State → Action → nat;
  heuristic : State → nat;
}.

Variable p : Problem.

(** Applying a plan action by action with [do_action]. *)
Fixpoint run (s : State) (plan : list Action) : option State :=
  match plan with
  | [] => Some s
  | a :: rest =>
      match do_action p s a with
      | Some s' => run s' rest
      | None => None
      end
  end.

(** A plan is legal from [s] when each action is offered by
    [available_actions] in the state where it is applied. *)
Fixpoint legal (s : State) (plan : list Action) : Prop :=
  match plan with
  | [] => True
  | a :: rest =>
      a ∈ available_actions p s ∧
      match do_action p s a with
      | Some s' => legal s' rest
      | None => False
      end
  end.

Definition reaches (s : State) (plan : list Action) (s' : State) : Prop :=
  legal s plan ∧ run s plan = Some s'.

(** Sum of the action costs along a plan. *)
Fixpoint plan_cost (s : State) (plan : list Action) : nat :=
  match plan with
  | [] => 0
  | a :: rest =>
      action_cost p s a +
      match do_action p s a with
      | Some s' => plan_cost s' rest
      | None => 0
      end
  end.

(** ** Depth-first search ([DFSAgent.dfs]) *)

(** The body of the [for action in available_actions(initial_state)] loop;
    [rec] is the recursive call [self.dfs].  The set [taken_states] is one
    Python object mutated in place: it is threaded through every call and
    handed back to the caller. *)
Fixpoint dfs_for
    (rec : State → list Action → gset State →
           outcome (option (list Action) * gset State))
    (initial_state : State) (steps : list Action)
    (actions : list Action) (taken_states : gset State)
    : outcome (option (list Action) * gset State) :=
  match actions with
  | [] => Ret (None, taken_states)
  | action :: rest =>
      match do_action p initial_state action with
      | None => Raise ProblemError
      | Some later_state =>
          if bool_decide (later_state ∉ taken_states) && (length steps <? 45)
          then
            let later_steps := steps ++ [action] in
            let taken_states := {[later_state]} ∪ taken_states in
            match rec later_state later_steps taken_states with
            | Ret (route, taken_states) =>
                if truthy route then Ret (route, taken_states)
                else dfs_for rec initial_state steps rest taken_states
            | Raise e => Raise e
            | Timeout => Timeout
            end
          else dfs_for rec initial_state steps rest taken_states
      end
  end.

Fixpoint dfs (fuel : nat) (initial_state : State) (steps : list Action)
    (taken_states : gset State)
    : outcome (option (list Action) * gset State) :=
  match fuel with
  | 0 => Timeout
  | S fuel =>
      if is_goal p initial_state then Ret (Some steps, taken_states)
      else dfs_for (dfs fuel) initial_state steps
             (available_actions p initial_state) taken_states
  end.

(** [DFSAgent.__init__]: the plan computed for the problem. *)
Definition DFSAgent (fuel : nat) : outcome (option (list Action)) :=
  let taken_states : gset State := {[initial_state p]} in
  match dfs fuel (initial_state p) [] taken_states with
  | Ret (plan, _) => Ret plan
  | Raise e => Raise e
  | Timeout => Timeout
  end.


(** The same two functions with a ghost log of the states on which [dfs] is
    entered, most recent first.  The log is only written, never read: erasing
    it gives [dfs_for] and [dfs] back (lemma [dfs_log_erase]). *)
Fixpoint dfs_for_log
    (rec : State → list Action → gset State → list State →
           outcome (option (list Action) * gset State * list State))
    (initial_state : State) (steps : list Action)
    (actions : list Action) (taken_states : gset State) (log : list State)
    : outcome (option (list Action) * gset State * list State) :=
  match actions with
  | [] => Ret (None, taken_states, log)
  | action :: rest =>
      match do_action p initial_state action with
      | None => Raise ProblemError
      | Some later_state =>
          if bool_decide (later_state ∉ taken_states) && (length steps <? 45)
          then
            let later_steps := steps ++ [action] in
            let taken_states := {[later_state]} ∪ taken_states in
            match rec later_state later_steps taken_states log with
            | Ret (route, taken_states, log) =>
                if truthy route then Ret (route, taken_states, log)
                else dfs_for_log rec initial_state steps rest taken_states log
            | Raise e => Raise e
            | Timeout => Timeout
            end
          else dfs_for_log rec initial_state steps rest taken_states log
      end
  end.

Fixpoint dfs_log (fuel : nat) (initial_state : State) (steps : list Action)
    (taken_states : gset State) (log : list State)
    : outcome (option (list Action) * gset State * list State) :=
  match fuel with
  | 0 => Timeout
  | S fuel =>
      let log := initial_state :: log in
      if is_goal p initial_state then Ret (Some steps, taken_states, log)
      else dfs_for_log (dfs_log fuel) initial_state steps
             (available_actions p initial_state) taken_states log
  end.

Definition erase_log {A B C} (o : outcome (A * B * C)) : outcome (A * B) :=
  match o with
  | Ret (a, b, _) => Ret (a, b)
  | Raise e => Raise e
  | Timeout => Timeout
  end.

(** ** Breadth-first search ([BFSAgent.bfs]) *)

(** The local variables of [bfs] that live across iterations of
    [while 1]: the list [visited] of [[route, state]] pairs, which serves as
    the frontier scanned by [idx], and the set [taken_states]. *)
Record bfs_state := BfsState {
  visited : list (list Action * State);
  bfs_taken : gset State;
  idx : nat;
}.

Inductive bfs_for_result :=
  | Returned (route : list Action)
  | Next (visited : list (list Action * State)) (taken_states : gset State)
  | Fault (e : exn).

(** The [for m in available_actions(starting_state)] loop.  The goal test
    follows the [if], outside of it, and the value returned is the route of
    the last element of [visited].  (The source tests the goal through the
    global name [problem], which the notebook binds to the object that is
    also [self.problem].) *)
Fixpoint bfs_for (starting_state : State)
    (route_to_starting_state : list Action) (actions : list Action)
    (visited : list (list Action * State)) (taken_states : gset State)
    : bfs_for_result :=
  match actions with
  | [] => Next visited taken_states
  | action :: rest =>
      match do_action p starting_state action with
      | None => Fault ProblemError
      | Some state =>
          let '(visited, taken_states) :=
            if bool_decide (state ∉ taken_states)
            then (visited ++ [(route_to_starting_state ++ [action], state)],
                  {[state]} ∪ taken_states)
            else (visited, taken_states) in
          if is_goal p state then
            match list.last visited with
            | Some (route, _) => Returned route
            | None => Fault IndexError
            end
          else bfs_for starting_state route_to_starting_state rest
                 visited taken_states
      end
  end.

(** One iteration of [while 1]; [inl] ends the call. *)
Definition bfs_step (st : bfs_state) : outcome (list Action) + bfs_state :=
  match visited st !! idx st with
  | None => inl (Raise IndexError)
  | Some (route_to_starting_state, starting_state) =>
      match bfs_for starting_state route_to_starting_state
              (available_actions p starting_state)
              (visited st) (bfs_taken st) with
      | Returned route => inl (Ret route)
      | Fault e => inl (Raise e)
      | Next visited taken_states =>
          inr (BfsState visited taken_states (idx st + 1))
      end
  end.

Fixpoint bfs_loop (fuel : nat) (st : bfs_state) : outcome (list Action) :=
  match fuel with
  | 0 => Timeout
  | S fuel =>
      match bfs_step st with
      | inl r => r
      | inr st' => bfs_loop fuel st'
      end
  end.

Definition bfs_init : bfs_state :=
  BfsState [([], initial_state p)] ∅ 0.

Definition bfs (fuel : nat) : outcome (list Action) :=
  bfs_loop fuel bfs_init.

(** The states of the loop that a call of [bfs] goes through. *)
Inductive bfs_reachable : bfs_state → Prop :=
  | bfs_reachable_init : bfs_reachable bfs_init
  | bfs_reachable_step st st' :
      bfs_reachable st → bfs_step st = inr st' → bfs_reachable st'.

(** ** A* ([astar]) *)

(** Python compares the queued tuples [(cost, route, state, taken_states,
    action_costs)] left to right: first the cost, then, at equal cost, the
    routes, lists of strings compared lexicographically.  Two queued entries
    never have the same route (lemma [astar_get_strictly_least]), so the
    later components are never looked at. *)
Fixpoint route_compare (r1 r2 : list Action) : comparison :=
  match r1, r2 with
  | [], [] => Eq
  | [], _ :: _ => Lt
  | _ :: _, [] => Gt
  | a1 :: r1, a2 :: r2 =>
      match String.compare a1 a2 with
      | Eq => route_compare r1 r2
      | c => c
      end
  end.

(** A set object is designated by a reference into a store of sets, so that
    two tuples holding the same object are told apart from two tuples
    holding equal sets. *)
Definition ref := nat.

Record entry := Entry {
  e_cost : nat;
  e_route : list Action;
  e_state : State;
  e_taken : ref;
  e_action_costs : nat;
}.

Definition entry_lt (e1 e2 : entry) : bool :=
  (e_cost e1 <? e_cost e2) ||
  ((e_cost e1 =? e_cost e2) &&
   match route_compare (e_route e1) (e_route e2) with
   | Lt => true
   | _ => false
   end).

(** [PriorityQueue.put] and [PriorityQueue.get]: the queue hands out its
    least element. *)
Definition put (queue : list entry) (e : entry) : list entry :=
  queue ++ [e].

Fixpoint get (queue : list entry) : option (entry * list entry) :=
  match queue with
  | [] => None
  | e :: queue =>
      match get queue with
      | None => Some (e, [])
      | Some (m, others) =>
          if entry_lt m e then Some (m, e :: others) else Some (e, queue)
      end
  end.

Definition deref (store : list (gset State)) (r : ref) : gset State :=
  default ∅ (store !! r).

(** [s.add(x)] on the set object [r]. *)
Definition set_add (store : list (gset State)) (r : ref) (x : State)
    : list (gset State) :=
  <[r := {[x]} ∪ deref store r]> store.

(** The [for action in available_actions(state)] loop of [astar], run for
    the entry [e] just taken from the queue. *)
Fixpoint astar_for (e : entry) (actions : list Action)
    (queue : list entry) (store : list (gset State))
    : outcome (list entry * list (gset State)) :=
  match actions with
  | [] => Ret (queue, store)
  | action :: rest =>
      match do_action p (e_state e) action with
      | None => Raise ProblemError
      | Some later_state =>
          let later_cost :=
            e_action_costs e + action_cost p (e_state e) action
            + heuristic p later_state in
          if bool_decide (later_state ∉ deref store (e_taken e)) then
            let later_route := e_route e ++ [action] in
            let store := set_add store (e_taken e) later_state in
            let later_action_costs :=
              e_action_costs e + action_cost p (e_state e) action in
            astar_for e rest
              (put queue (Entry later_cost later_route later_state
                            (e_taken e) later_action_costs))
              store
          else astar_for e rest queue store
      end
  end.

(** The variables of [astar] that live across iterations of the [while]
    loop: the queue, the store holding the set objects, and the reference
    held by the local variable [taken_states]. *)
Record astar_state := AstarState {
  queue : list entry;
  store : list (gset State);
  taken_var : ref;
}.

(** One iteration of the [while] loop; [inl] ends the call.  The second
    component of a result is the number printed before returning. *)
Definition astar_step (st : astar_state)
    : outcome (option (list Action) * nat) + astar_state :=
  match get (queue st) with
  | None => inl (Ret (None, size (deref (store st) (taken_var st))))
  | Some (e, queue) =>
      if is_goal p (e_state e)
      then inl (Ret (Some (e_route e), size (deref (store st) (e_taken e))))
      else
        match astar_for e (available_actions p (e_state e))
                queue (store st) with
        | Ret (queue, store) => inr (AstarState queue store (e_taken e))
        | Raise x => inl (Raise x)
        | Timeout => inl Timeout
        end
  end.

Fixpoint astar_loop (fuel : nat) (st : astar_state)
    : outcome (option (list Action) * nat) :=
  match fuel with
  | 0 => Timeout
  | S fuel =>
      match astar_step st with
      | inl r => r
      | inr st' => astar_loop fuel st'
      end
  end.

(** State of [astar] on entry to the loop: one set object, holding the
    initial state, and one queued tuple referring to it. *)
Definition astar_init : astar_state :=
  let store : list (gset State) := [{[initial_state p]}] in
  let taken_states : ref := 0 in
  AstarState
    (put [] (Entry (heuristic p (initial_state p)) [] (initial_state p)
               taken_states 0))
    store taken_states.

Definition astar (fuel : nat) : outcome (option (list Action) * nat) :=
  astar_loop fuel astar_init.

(** The states of the loop that a call of [astar] goes through. *)
Inductive astar_reachable : astar_state → Prop :=
  | astar_reachable_init : astar_reachable astar_init
  | astar_reachable_step st st' :
      astar_reachable st → astar_step st = inr st' → astar_reachable st'.


(** Heuristics: consistency is the triangle inequality over every offered
    action; admissibility bounds the heuristic by the cost of every plan
    that leads to a goal. *)
Definition consistent : Prop :=
  ∀ s a s', a ∈ available_actions p s → do_action p s a = Some s' →
    heuristic p s ≤ action_cost p s a + heuristic p s'.

Definition admissible : Prop :=
  ∀ s plan g, reaches s plan g → is_goal p g = true →
    heuristic p s ≤ plan_cost s plan.

(** ** Invariants and postconditions used in the proofs *)

(** What a finished call [dfs(s, steps, taken)] guarantees: the set has only
    grown, and a plan, when there is one, extends [steps] by a legal path
    from [s] to a goal and is no longer than the bound allows. *)
Definition dfs_post (s : State) (steps : list Action) (taken : gset State)
    (res : option (list Action) * gset State) : Prop :=
  taken ⊆ res.2 ∧
  ∀ plan, res.1 = Some plan →
    ∃ suffix g, plan = steps ++ suffix ∧ reaches s suffix g ∧
                is_goal p g = true ∧
                length plan ≤ Nat.max 45 (length steps).

(** Every logged state is in the set, and none is logged twice. *)
Definition log_inv (taken : gset State) (log : list State) : Prop :=
  NoDup log ∧ ∀ x, x ∈ log → x ∈ taken.

(** Soundness invariant of the [while] loop: every listed route leads,
    through offered actions, to the state listed with it, and no state of
    the set is a goal (a goal is returned the moment it is added). *)
Definition bfs_sound_inv (visited : list (list Action * State))
    (taken : gset State) : Prop :=
  (∀ r s, (r, s) ∈ visited → reaches (initial_state p) r s) ∧
  (∀ s, s ∈ taken → is_goal p s = false).

(** In [visited], the successor of [e] by each action of [acts] is listed,
    with a route at most one action longer than that of [e]. *)
Definition closed_entry (visited : list (list Action * State))
    (e : list Action * State) (acts : list Action) : Prop :=
  ∀ a, a ∈ acts →
    ∃ s' r', do_action p e.2 a = Some s' ∧ (r', s') ∈ visited ∧
             length r' ≤ length e.1 + 1.

(** Level invariant of the [while] loop, for a non-goal initial state:
    [visited] is ordered by route length, is at most one level ahead of the
    entry at [idx], holds no goal, and every entry before [idx] has all its
    successors listed. *)
Record bfs_level_inv (visited : list (list Action * State))
    (taken : gset State) (idx : nat) : Prop := {
  inv_first : visited !! 0 = Some ([], initial_state p);
  inv_nongoal : ∀ r s, (r, s) ∈ visited → is_goal p s = false;
  inv_taken : ∀ s, s ∈ taken → ∃ r, (r, s) ∈ visited;
  inv_sorted : ∀ i j ei ej, i ≤ j →
    visited !! i = Some ei → visited !! j = Some ej →
    length ei.1 ≤ length ej.1;
  inv_bound : ∀ e0 e, visited !! idx = Some e0 → e ∈ visited →
    length e.1 ≤ length e0.1 + 1;
  inv_closed : ∀ j e, j < idx → visited !! j = Some e →
    closed_entry visited e (available_actions p e.2);
}.

(** A state of the set is pending when a queued entry holds it, and closed
    when it is no goal and the set holds all its successors. *)
Definition pending (q : list entry) (s : State) : Prop :=
  ∃ e, e ∈ q ∧ e_state e = s.

Definition closed (T : gset State) (s : State) (acts : list Action) : Prop :=
  ∀ a, a ∈ acts → ∃ s', do_action p s a = Some s' ∧ s' ∈ T.

(** Invariant of the [while] loop.  There is one set object, at reference 0,
    and every queued entry refers to it; the set holds the initial state;
    each state of the set is pending, or is a closed non-goal; each queued
    route leads to the state queued with it. *)
Record astar_inv (st : astar_state) : Prop := {
  ai_refs : ∀ e, e ∈ queue st → e_taken e = 0;
  ai_var : taken_var st = 0;
  ai_store : ∃ T, store st = [T] ∧ initial_state p ∈ T ∧
     ∀ s, s ∈ T →
       pending (queue st) s ∨
       (is_goal p s = false ∧ closed T s (available_actions p s));
  ai_reach : ∀ e, e ∈ queue st →
     reaches (initial_state p) (e_route e) (e_state e);
}.

(** No queued route is a prefix of another queued route; in particular no
    two queued entries have the same route. *)
Definition routes_antichain (q : list entry) : Prop :=
  NoDup (e_route <$> q) ∧
  ∀ x y, x ∈ q → y ∈ q →
    e_route x `prefix_of` e_route y → e_route x = e_route y.

(** ** Agents and the loop that runs them *)

(** [next_action] of the three agents: [self.plan.pop(0)], which raises
    IndexError when the plan is empty.  The result pairs the action with the
    plan that is left in [self.plan]. *)
Definition next_action (plan : list Action) : outcome (Action * list Action) :=
  match plan with
  | [] => Raise IndexError
  | action :: plan => Ret (action, plan)
  end.

(** The loop of the notebooks' test cells, for an agent holding [plan]:
    [while not problem.is_goal(state): action = agent.next_action(None);
    state = problem.do_action(state, action)].  The result is the state
    reached and what is left of the agent's plan. *)
Fixpoint run_agent (fuel : nat) (plan : list Action) (state : State)
    : outcome (State * list Action) :=
  match fuel with
  | 0 => Timeout
  | S fuel =>
      if is_goal p state then Ret (state, plan)
      else
        match next_action plan with
        | Ret (action, plan) =>
            match do_action p state action with
            | Some state => run_agent fuel plan state
            | None => Raise ProblemError
            end
        | Raise e => Raise e
        | Timeout => Timeout
        end
  end.

(** ** Notions used to state further properties *)

(** The states a plan goes through after its first, second, ... action. *)
Fixpoint states_along (s : State) (plan : list Action) : list State :=
  match plan with
  | [] => []
  | a :: rest =>
      match do_action p s a with
      | Some s' => s' :: states_along s' rest
      | None => []
      end
  end.

(** The plan runs through non-goal states and ends in a goal: its end is
    the first goal on its way. *)
Fixpoint stops_at_first_goal (s : State) (plan : list Action) : Prop :=
  match plan with
  | [] => is_goal p s = true
  | a :: rest =>
      is_goal p s = false ∧
      match do_action p s a with
      | Some s' => stops_at_first_goal s' rest
      | None => False
      end
  end.

(** A finite set of states that holds the initial state and, with a state,
    the result of each action offered there, [do_action] returning
    normally. *)
Definition closed_space (R : gset State) : Prop :=
  initial_state p ∈ R ∧
  ∀ s a, s ∈ R → a ∈ available_actions p s →
    ∃ s', do_action p s a = Some s' ∧ s' ∈ R.

(** The states that the entries of a queue hold. *)
Definition queued_states (q : list entry) : list State := e_state <$> q.

(** Every action of the plan is taken in a non-goal state. *)
Fixpoint through_nongoal (s : State) (plan : list Action) : Prop :=
  match plan with
  | [] => True
  | a :: rest =>
      is_goal p s = false ∧
      match do_action p s a with
      | Some s' => through_nongoal s' rest
      | None => False
      end
  end.

(** Second invariant of the [while] loop of [astar], on what the queued
    entries record.  The queued states are pairwise distinct and in the
    set; the set holds only states within reach of the initial state; the
    accumulated cost of an entry is the cost of its route and its priority
    adds the heuristic of its state; a route goes through pairwise distinct
    states of the set, none of them a goal before the last. *)
Record astar_entries_inv (st : astar_state) : Prop := {
  aj_nodup : NoDup (queued_states (queue st));
  aj_in : ∀ e, e ∈ queue st → e_state e ∈ deref (store st) 0;
  aj_reach : ∀ s, s ∈ deref (store st) 0 →
     ∃ plan, reaches (initial_state p) plan s;
  aj_costs : ∀ e, e ∈ queue st →
     e_action_costs e = plan_cost (initial_state p) (e_route e) ∧
     e_cost e = e_action_costs e + heuristic p (e_state e);
  aj_path : ∀ e, e ∈ queue st →
     through_nongoal (initial_state p) (e_route e) ∧
     NoDup (initial_state p :: states_along (initial_state p) (e_route e)) ∧
     ∀ x, x ∈ states_along (initial_state p) (e_route e) →
          x ∈ deref (store st) 0;
}.

End Search.

Arguments Problem State : clear implicits.
Arguments MkProblem {State}.
Arguments entry State : clear implicits.

(** ** Python list indexing *)

(** [l[i]] accepts [-len(l) <= i < len(l)]; a negative index counts from the
    end. *)
Definition py_index (n : nat) (i : Z) : option nat :=
  if bool_decide (0 ≤ i < Z.of_nat n)%Z then Some (Z.to_nat i)
  else if bool_decide (- Z.of_nat n ≤ i < 0)%Z
       then Some (Z.to_nat (Z.of_nat n + i))
  else None.

Definition py_getitem {A} (l : list A) (i : Z) : option A :=
  k ← py_index (length l) i; l !! k.

Definition py_setitem {A} (l : list A) (i : Z) (x : A) : option (list A) :=
  k ← py_index (length l) i; Some (<[k := x]> l).

(** ** The vacuum world ([VacuumProblem]) *)

Module Vacuum.

Definition State : Type := Z * list bool.

Definition initial_state : State := (0%Z, [true; true]).

Definition available_actions (state : State) : list Action :=
  ["Left"; "Suck"; "Right"]%string.

Definition do_action (state : State) (action : Action) : option State :=
  let '(robot, dirty) := state in
  if String.eqb action "Left" then Some (Z.max (robot - 1) 0, dirty)
  else if String.eqb action "Suck" then
    new_dirty ← py_setitem dirty robot false;
    Some (robot, new_dirty)
  else if String.eqb action "Right" then
    Some (Z.min (robot + 1) (Z.of_nat (length dirty) - 1), dirty)
  else None.

(** [not any(state[1])] *)
Definition is_goal (state : State) : bool := negb (existsb id state.2).

Definition action_cost (state : State) (action : Action) : nat := 1.

(** [sum(state[1])]: booleans count as 0 and 1. *)
Definition heuristic (state : State) : nat :=
  sum_list (Nat.b2n <$> state.2).

Definition VacuumProblem : Problem State :=
  MkProblem initial_state available_actions do_action is_goal
    action_cost heuristic.

(** [VacuumProblem1]: [len(state[1]) - sum(state[1])] *)
Definition VacuumProblem1 : Problem State :=
  MkProblem initial_state available_actions do_action is_goal
    action_cost (λ state, length state.2 - heuristic state).

(** [VacuumProblem2]: [10 * sum(state[1])] *)
Definition VacuumProblem2 : Problem State :=
  MkProblem initial_state available_actions do_action is_goal
    action_cost (λ state, 10 * heuristic state).

(** Well-formed vacuum states: the robot is in one of the rooms. *)
Definition wf (state : State) : Prop :=
  (0 ≤ state.1 < Z.of_nat (length state.2))%Z.

End Vacuum.

(** ** The 8-puzzle ([PuzzleProblem], the same in both notebooks) *)

Module Puzzle.

Definition State : Type := Z * list Z.

Definition initial_state : State := (4, [7; 2; 4; 5; 0; 6; 8; 3; 1])%Z.

Definition available_actions (state : State) : list Action :=
  let position := state.1 in
  let actions : list Action := [] in
  let actions :=
    if bool_decide (position `mod` 3 > 0)%Z
    then actions ++ ["Right"%string] else actions in
  let actions :=
    if bool_decide (position `mod` 3 < 2)%Z
    then actions ++ ["Left"%string] else actions in
  let actions :=
    if bool_decide (position > 2)%Z
    then actions ++ ["Down"%string] else actions in
  let actions :=
    if bool_decide (position < 6)%Z
    then actions ++ ["Up"%string] else actions in
  actions.

(** [board[i], board[j] = board[j], board[i]]: the right-hand side is read
    first, left to right, then the two targets are assigned left to right. *)
Definition swap (board : list Z) (i j : Z) : option (list Z) :=
  x ← py_getitem board j;
  y ← py_getitem board i;
  board ← py_setitem board i x;
  py_setitem board j y.

Definition do_action (state : State) (action : Action) : option State :=
  let board := state.2 in
  let position := state.1 in
  if String.eqb action "Down" then
    board ← swap board position (position - 3);
    Some ((position - 3)%Z, board)
  else if String.eqb action "Up" then
    board ← swap board position (position + 3);
    Some ((position + 3)%Z, board)
  else if String.eqb action "Right" then
    board ← swap board position (position - 1);
    Some ((position - 1)%Z, board)
  else if String.eqb action "Left" then
    board ← swap board position (position + 1);
    Some ((position + 1)%Z, board)
  else None.

Definition solved : State := (0, [0; 1; 2; 3; 4; 5; 6; 7; 8])%Z.

Definition is_goal (state : State) : bool := bool_decide (state = solved).

Definition action_cost (state : State) (action : Action) : nat := 1.

Definition heuristic (state : State) : nat := 0.

Definition PuzzleProblem : Problem State :=
  MkProblem initial_state available_actions do_action is_goal
    action_cost heuristic.

(** Well-formed puzzle states: the blank's index is on the board, the board
    holds each of 0..8 once, and the blank is where the index says. *)
Definition wf (state : State) : Prop :=
  (0 ≤ state.1 ≤ 8)%Z ∧
  length state.2 = 9 ∧
  py_getitem state.2 state.1 = Some 0%Z ∧
  state.2 ≡ₚ [0; 1; 2; 3; 4; 5; 6; 7; 8]%Z.

(** [range(9)] *)
Definition range9 : list Z := [0; 1; 2; 3; 4; 5; 6; 7; 8]%Z.

(** [PuzzleProblem1.heuristic]: the number of squares, the blank's apart,
    that do not hold their own number.  [state[1][i]] is read first, for
    every [i]; an exception leaves the loop. *)
Definition heuristic1 (state : State) : option Z :=
  foldl (λ (cost : option Z) (i : Z),
           cost ← cost;
           v ← py_getitem state.2 i;
           Some (if bool_decide (i ≠ v) && bool_decide (i ≠ state.1)
                 then (cost + 1)%Z else cost))
        (Some 0%Z) range9.

(** [PuzzleProblem2.heuristic]: the sum, over the squares other than the
    blank's, of the row and column distances between the square and the
    home square of the number it holds.  [int(x / 3)] divides as floats and
    truncates; on integers below 2^53 in absolute value this is the
    quotient rounded toward zero, [Z.quot]. *)
Definition heuristic2 (state : State) : option Z :=
  foldl (λ (cost : option Z) (i : Z),
           cost ← cost;
           if bool_decide (i ≠ state.1) then
             v ← py_getitem state.2 i;
             Some (cost + (Z.abs (Z.quot v 3 - Z.quot i 3)
                           + Z.abs (i `mod` 3 - v `mod` 3)))%Z
           else Some cost)
        (Some 0%Z) range9.

(** Both heuristics add, over the squares other than the blank's, a weight
    that depends on the square and on the number it holds. *)
Definition tile_sum (w : Z → Z → Z) (state : State) : Z :=
  foldl (λ (cost : Z) (i : Z),
           if bool_decide (i ≠ state.1)
           then (cost + w i (default 0 (py_getitem state.2 i)))%Z
           else cost)
        0%Z range9.

Definition misplaced (i v : Z) : Z := if bool_decide (i ≠ v) then 1 else 0.

Definition manhattan (i v : Z) : Z :=
  (Z.abs (Z.quot v 3 - Z.quot i 3) + Z.abs (i `mod` 3 - v `mod` 3))%Z.

(** The action that undoes an action. *)
Definition opposite (action : Action) : Action :=
  if String.eqb action "Left" then "Right"
  else if String.eqb action "Right" then "Left"
  else if String.eqb action "Up" then "Down"
  else if String.eqb action "Down" then "Up"
  else action.

(** The squares the blank can move to from [position]: one row up or down,
    or one column left or right within the row. *)
Definition adjacent (position target : Z) : Prop :=
  (target = position - 3 ∨ target = position + 3 ∨
   (target = position - 1 ∧ position `mod` 3 > 0) ∨
   (target = position + 1 ∧ position `mod` 3 < 2))%Z.

(** A weight that changes by at most one when a number moves between
    adjacent squares. *)
Definition unit_step (w : Z → Z → Z) : Prop :=
  ∀ position target v : Z,
    (0 ≤ position ≤ 8)%Z → (0 ≤ target ≤ 8)%Z → adjacent position target →
    (Z.abs (w target v - w position v) ≤ 1)%Z.

End Puzzle.
(** ** Further problems, used to exercise the three searches *)

(** The vacuum world started with both rooms already clean. *)
Definition CleanVacuum : Problem Vacuum.State :=
  {| initial_state := (0%Z, [false; false]);
     available_actions := Vacuum.available_actions;
     do_action := Vacuum.do_action;
     is_goal := Vacuum.is_goal;
     action_cost := Vacuum.action_cost;
     heuristic := Vacuum.heuristic |}.

(** A single state that is no goal and offers no action. *)
Definition DeadEnd : Problem nat :=
  {| initial_state := 0;
     available_actions := λ _, [];
     do_action := λ _ _, None;
     is_goal := λ _, false;
     action_cost := λ _ _, 1;
     heuristic := λ _, 0 |}.

(** A one-way street: action "a" leads from state 0 to state 1 and from
    state 1 to itself.  The goal, state 2, is out of reach. *)
Definition OneWay : Problem nat :=
  {| initial_state := 0;
     available_actions := λ _, ["a"%string];
     do_action := λ n action,
       if String.eqb action "a" then Some 1 else None;
     is_goal := λ n, n =? 2;
     action_cost := λ _ _, 1;
     heuristic := λ _, 0 |}.

(** States 0, 1, 2, ... in a row: action "a" steps from [n] to [n + 1]; the
    initial state 0 also offers "b", a shortcut to state 45.  The goal is
    state 46. *)
Definition Corridor : Problem nat :=
  {| initial_state := 0;
     available_actions := λ n,
       if n =? 0 then ["a"; "b"]%string else ["a"%string];
     do_action := λ n action,
       if String.eqb action "a" then Some (n + 1)
       else if String.eqb action "b" && (n =? 0) then Some 45
       else None;
     is_goal := λ n, n =? 46;
     action_cost := λ _ _, 1;
     heuristic := λ _, 0 |}.

(** Three states: from 0, action "x" (cost 1) leads to 1 and action "y"
    (cost 10) leads to the goal 2; from 1, action "z" (cost 1) leads to the
    goal 2.  The heuristic is 0 everywhere. *)
Definition Detour : Problem nat :=
  {| initial_state := 0;
     available_actions := λ n,
       if n =? 0 then ["x"; "y"]%string
       else if n =? 1 then ["z"%string] else [];
     do_action := λ n action,
       if (n =? 0) && String.eqb action "x" then Some 1
       else if (n =? 0) && String.eqb action "y" then Some 2
       else if (n =? 1) && String.eqb action "z" then Some 2
       else None;
     is_goal := λ n, n =? 2;
     action_cost := λ n action, if String.eqb action "y" then 10 else 1;
     heuristic := λ _, 0 |}.


(** Six states with unit action costs: 0 -a-> 1 -c-> 3 -x-> 4 -g-> 5 and
    0 -b-> 2 -x-> 4, with goal 5.  The heuristic is 2 at state 2, 1 at
    state 4 and 0 elsewhere. *)
Definition Ridge : Problem nat :=
  {| initial_state := 0;
     available_actions := λ n,
       match n with
       | 0 => ["a"; "b"]%string
       | 1 => ["c"%string]
       | 2 | 3 => ["x"%string]
       | 4 => ["g"%string]
       | _ => []
       end;
     do_action := λ n action,
       match n with
       | 0 => if String.eqb action "a" then Some 1
              else if String.eqb action "b" then Some 2 else None
       | 1 => if String.eqb action "c" then Some 3 else None
       | 2 | 3 => if String.eqb action "x" then Some 4 else None
       | 4 => if String.eqb action "g" then Some 5 else None
       | _ => None
       end;
     is_goal := λ n, n =? 5;
     action_cost := λ _ _, 1;
     heuristic := λ n, match n with 2 => 2 | 4 => 1 | _ => 0 end |}.

(** The eight states of the two-room vacuum world. *)
Definition vacuum_states : gset Vacuum.State :=
  list_to_set
    [(0%Z, [true; true]); (0%Z, [false; true]);
     (0%Z, [true; false]); (0%Z, [false; false]);
     (1%Z, [true; true]); (1%Z, [false; true]);
     (1%Z, [true; false]); (1%Z, [false; false])].

(** ** Tactics for closed goals *)

Ltac solve_elem_of :=
  repeat first [apply list_elem_of_here | apply list_elem_of_further].

Ltac solve_reaches :=
  split; [simpl; repeat (split; [solve_elem_of|]); exact I
         | vm_compute; reflexivity].

(** * Properties *)

(** ** The 8-puzzle keeps its states well formed *)

Lemma py_index_inbounds (n : nat) (i : Z) :
  (0 ≤ i < Z.of_nat n)%Z → py_index n i = Some (Z.to_nat i).
Proof. intros Hi. unfold py_index. by rewrite bool_decide_eq_true_2. Qed.

Lemma py_getitem_inbounds {A} (l : list A) (i : Z) :
  (0 ≤ i < Z.of_nat (length l))%Z → py_getitem l i = l !! Z.to_nat i.
Proof. intros Hi. unfold py_getitem. by rewrite py_index_inbounds. Qed.

Lemma py_setitem_inbounds {A} (l : list A) (i : Z) (x : A) :
  (0 ≤ i < Z.of_nat (length l))%Z →
  py_setitem l i x = Some (<[Z.to_nat i := x]> l).
Proof. intros Hi. unfold py_setitem. by rewrite py_index_inbounds. Qed.

Lemma swap_inbounds (board : list Z) (i j : Z) (x y : Z) :
  (0 ≤ i < Z.of_nat (length board))%Z →
  (0 ≤ j < Z.of_nat (length board))%Z →
  board !! Z.to_nat i = Some y →
  board !! Z.to_nat j = Some x →
  Puzzle.swap board i j
  = Some (<[Z.to_nat j := y]> (<[Z.to_nat i := x]> board)).
Proof.
  intros Hi Hj Hy Hx. unfold Puzzle.swap.
  rewrite !py_getitem_inbounds, Hx, Hy by done. simpl.
  rewrite py_setitem_inbounds by done. simpl.
  by rewrite py_setitem_inbounds by (by rewrite length_insert).
Qed.

Lemma puzzle_available_cases (position : Z) (board : list Z) (action : Action) :
  action ∈ Puzzle.available_actions (position, board) →
  (action = "Right"%string ∧ position `mod` 3 > 0)%Z ∨
  (action = "Left"%string ∧ position `mod` 3 < 2)%Z ∨
  (action = "Down"%string ∧ position > 2)%Z ∨
  (action = "Up"%string ∧ position < 6)%Z.
Proof.
  unfold Puzzle.available_actions. simpl.
  repeat case_bool_decide; simpl; intros Hin;
    decompose_list_elem_of; subst; auto 10.
Qed.

(** The move of the blank by [d] squares, when the target square is on the
    board. *)
Lemma puzzle_move_wf (position d : Z) (board : list Z) :
  Puzzle.wf (position, board) →
  (0 ≤ position + d ≤ 8)%Z →
  ∃ board',
    Puzzle.swap board position (position + d) = Some board' ∧
    Puzzle.wf ((position + d)%Z, board').
Proof.
  intros (Hp & Hlen & Hblank & Hperm) Hq. simpl in *.
  rewrite py_getitem_inbounds in Hblank by lia.
  destruct (lookup_lt_is_Some_2 board (Z.to_nat (position + d))) as [x Hx];
    [lia|].
  eexists. split.
  { apply swap_inbounds; [lia | lia | exact Hblank | exact Hx]. }
  repeat split; simpl; try lia.
  - by rewrite !length_insert.
  - rewrite py_getitem_inbounds by (rewrite !length_insert; lia).
    apply list_lookup_insert_eq. rewrite length_insert. lia.
  - rewrite <- Hperm. by apply Permutation_insert_swap.
Qed.

(** C10. From a well-formed puzzle state (blank index in 0..8, nine entries,
    a permutation of 0..8 with the blank at the index), every action listed
    by [available_actions] makes [do_action] return normally: the two board
    squares it swaps are the old and the new blank index, both in 0..8, and
    the state returned is again well formed. *)
Theorem puzzle_do_action_preserves_wf
    (position : Z) (board : list Z) (action : Action) :
  Puzzle.wf (position, board) →
  action ∈ Puzzle.available_actions (position, board) →
  ∃ position' board',
    Puzzle.do_action (position, board) action = Some (position', board') ∧
    Puzzle.swap board position position' = Some board' ∧
    (0 ≤ position ≤ 8)%Z ∧ (0 ≤ position' ≤ 8)%Z ∧
    py_getitem board' position' = Some 0%Z ∧
    board' ≡ₚ [0; 1; 2; 3; 4; 5; 6; 7; 8]%Z ∧
    Puzzle.wf (position', board').
Proof.
  intros Hwf Hin. pose proof Hwf as (Hp & _). simpl in Hp.
  assert (Hmod : (position `mod` 3 > 0 → 1 ≤ position)%Z ∧
                 (position `mod` 3 < 2 → position ≤ 7)%Z).
  { split; intros Hm; Z.div_mod_to_equations; lia. }
  destruct Hmod as [Hlo Hhi].
  apply puzzle_available_cases in Hin
    as [[-> Hc]|[[-> Hc]|[[-> Hc]|[-> Hc]]]].
  - destruct (puzzle_move_wf position (-1) board Hwf) as (b' & Hs & Hwf');
      [lia|].
    exists (position - 1)%Z, b'. unfold Puzzle.do_action; simpl.
    replace (position - 1)%Z with (position + -1)%Z by lia.
    rewrite Hs; simpl. destruct Hwf' as (? & ? & ? & ?).
    repeat split; simpl in *; auto; lia.
  - destruct (puzzle_move_wf position 1 board Hwf) as (b' & Hs & Hwf');
      [lia|].
    exists (position + 1)%Z, b'. unfold Puzzle.do_action; simpl.
    rewrite Hs; simpl. destruct Hwf' as (? & ? & ? & ?).
    repeat split; simpl in *; auto; lia.
  - destruct (puzzle_move_wf position (-3) board Hwf) as (b' & Hs & Hwf');
      [lia|].
    exists (position - 3)%Z, b'. unfold Puzzle.do_action; simpl.
    replace (position - 3)%Z with (position + -3)%Z by lia.
    rewrite Hs; simpl. destruct Hwf' as (? & ? & ? & ?).
    repeat split; simpl in *; auto; lia.
  - destruct (puzzle_move_wf position 3 board Hwf) as (b' & Hs & Hwf');
      [lia|].
    exists (position + 3)%Z, b'. unfold Puzzle.do_action; simpl.
    rewrite Hs; simpl. destruct Hwf' as (? & ? & ? & ?).
    repeat split; simpl in *; auto; lia.
Qed.

(** ** Plans *)

Section Plans.
Context {State : Type} `{Countable State}.
Variable p : Problem State.

Lemma run_app (s : State) (plan1 plan2 : list Action) :
  run p s (plan1 ++ plan2) = s' ← run p s plan1; run p s' plan2.
Proof.
  revert s. induction plan1 as [|a plan1 IH]; intros s; simpl; [done|].
  destruct (do_action p s a); simpl; auto.
Qed.

Lemma legal_app (s s' : State) (plan1 plan2 : list Action) :
  legal p s plan1 → run p s plan1 = Some s' → legal p s' plan2 →
  legal p s (plan1 ++ plan2).
Proof.
  revert s. induction plan1 as [|a plan1 IH]; intros s; simpl.
  - intros _ [= ->]. done.
  - intros [Ha Hl]. destruct (do_action p s a); [|done]. eauto.
Qed.

Lemma reaches_nil (s : State) : reaches p s [] s.
Proof. done. Qed.

Lemma reaches_cons (s s' g : State) (a : Action) (plan : list Action) :
  a ∈ available_actions p s → do_action p s a = Some s' →
  reaches p s' plan g → reaches p s (a :: plan) g.
Proof. intros Ha Hd [Hl Hr]. split; simpl; rewrite Hd; auto. Qed.

Lemma reaches_snoc (s s' g : State) (a : Action) (plan : list Action) :
  reaches p s plan s' → a ∈ available_actions p s' →
  do_action p s' a = Some g → reaches p s (plan ++ [a]) g.
Proof.
  intros [Hl Hr] Ha Hd. split.
  - eapply legal_app; eauto. simpl. by rewrite Hd.
  - rewrite run_app, Hr. simpl. by rewrite Hd.
Qed.

Lemma reaches_snoc_inv (s g : State) (a : Action) (plan : list Action) :
  reaches p s (plan ++ [a]) g →
  ∃ s', reaches p s plan s' ∧ a ∈ available_actions p s' ∧
        do_action p s' a = Some g.
Proof.
  revert s. induction plan as [|b plan IH]; intros s [Hl Hr]; simpl in *.
  - destruct Hl as [Ha Hl]. destruct (do_action p s a) as [s1|] eqn:Hd; [|done].
    exists s. split_and!; [apply reaches_nil|done|congruence].
  - destruct Hl as [Hb Hl]. destruct (do_action p s b) as [s1|] eqn:Hd; [|done].
    destruct (IH s1) as (s' & Hr' & Ha & Hd'); [done|].
    exists s'. split_and!; [|done..]. by eapply reaches_cons.
Qed.

(** A consistent heuristic that is 0 on goals is admissible. *)
Lemma consistent_admissible :
  consistent p → (∀ g, is_goal p g = true → heuristic p g = 0) →
  admissible p.
Proof.
  intros Hcons Hzero s plan. revert s.
  induction plan as [|a plan IH]; intros s g [Hl Hr] Hg; simpl in *.
  - injection Hr as ->. rewrite (Hzero g Hg). lia.
  - destruct Hl as [Ha Hl].
    destruct (do_action p s a) as [s'|] eqn:Hdo; [|done].
    specialize (Hcons s a s' Ha Hdo).
    specialize (IH s' g (conj Hl Hr) Hg). lia.
Qed.

End Plans.

(** ** Depth-first search *)

Section DfsProps.
Context {State : Type} `{Countable State}.
Variable p : Problem State.

Abbreviation dfs_result := (option (list Action) * gset State)%type.


Lemma dfs_for_post rec (s : State) (steps actions : list Action)
    (taken : gset State) (res : dfs_result) :
  (∀ s' steps' taken' res',
     rec s' steps' taken' = Ret res' → dfs_post p s' steps' taken' res') →
  (∀ a, a ∈ actions → a ∈ available_actions p s) →
  dfs_for p rec s steps actions taken = Ret res →
  dfs_post p s steps taken res.
Proof.
  intros Hrec. revert taken.
  induction actions as [|a actions IH]; intros taken Hav; simpl.
  { intros [= <-]. split; [done|]. intros plan [=]. }
  destruct (do_action p s a) as [s'|] eqn:Hdo; [|done].
  assert (Hav' : ∀ a', a' ∈ actions → a' ∈ available_actions p s)
    by (intros; apply Hav; by right).
  destruct (bool_decide (s' ∉ taken) && (length steps <? 45)) eqn:Hguard;
    [|by apply IH].
  apply andb_prop in Hguard as [_ Hlen%Nat.ltb_lt].
  destruct (rec s' (steps ++ [a]) ({[s']} ∪ taken))
    as [[route taken2]| |] eqn:Hcall; [|done..].
  apply Hrec in Hcall as [Hsub Hplan]. simpl in Hsub, Hplan.
  destruct (truthy route) eqn:Htruthy.
  - intros [= <-]. split; simpl; [set_solver|].
    intros plan ->.
    destruct (Hplan plan eq_refl) as (suffix & g & -> & Hr & Hg & Hle).
    exists (a :: suffix), g. rewrite <- app_assoc. simpl.
    split_and!; [done| |done|].
    + eapply reaches_cons; eauto. apply Hav. by left.
    + repeat rewrite length_app in Hle. rewrite length_app.
      simpl in *. lia.
  - intros Hrest. apply IH in Hrest as [Hsub' Hplan']; [|done].
    split; [set_solver|done].
Qed.

Lemma dfs_post_holds (fuel : nat) (s : State) (steps : list Action)
    (taken : gset State) (res : dfs_result) :
  dfs p fuel s steps taken = Ret res → dfs_post p s steps taken res.
Proof.
  revert s steps taken res.
  induction fuel as [|fuel IH]; intros s steps taken res; simpl; [done|].
  destruct (is_goal p s) eqn:Hgoal.
  - intros [= <-]. split; [done|]. simpl. intros plan [= <-].
    exists [], s. rewrite app_nil_r. split_and!; auto using reaches_nil. lia.
  - apply dfs_for_post; auto.
Qed.

(** The recursive call is only made below the bound, so [dfs_for] depends
    on [rec] only there. *)
Lemma dfs_for_ext rec1 rec2 (s : State) (steps actions : list Action)
    (taken : gset State) :
  (length steps < 45 →
   ∀ s' a taken', rec1 s' (steps ++ [a]) taken' = rec2 s' (steps ++ [a]) taken') →
  dfs_for p rec1 s steps actions taken = dfs_for p rec2 s steps actions taken.
Proof.
  intros Hext. revert taken.
  induction actions as [|a actions IH]; intros taken; simpl; [done|].
  destruct (do_action p s a) as [s'|]; [|done].
  destruct (bool_decide (s' ∉ taken) && (length steps <? 45)) eqn:Hguard;
    [|done].
  apply andb_prop in Hguard as [_ Hlen%Nat.ltb_lt].
  rewrite (Hext Hlen).
  destruct (rec2 s' (steps ++ [a]) ({[s']} ∪ taken)) as [[route taken2]| |];
    [|done..].
  by rewrite IH.
Qed.

Lemma dfs_fuel_irrelevant (fuel1 fuel2 : nat) (s : State)
    (steps : list Action) (taken : gset State) :
  0 < fuel1 → 46 ≤ fuel1 + length steps →
  0 < fuel2 → 46 ≤ fuel2 + length steps →
  dfs p fuel1 s steps taken = dfs p fuel2 s steps taken.
Proof.
  revert fuel2 s steps taken.
  induction fuel1 as [|fuel1 IH]; intros [|fuel2] s steps taken; try lia.
  intros _ H1 _ H2. simpl. destruct (is_goal p s); [done|].
  apply dfs_for_ext. intros Hlen s' a taken'.
  apply IH; rewrite ?length_app; simpl; lia.
Qed.

Lemma dfs_for_no_timeout rec (s : State) (steps actions : list Action)
    (taken : gset State) :
  (length steps < 45 →
   ∀ s' a taken', rec s' (steps ++ [a]) taken' ≠ Timeout) →
  dfs_for p rec s steps actions taken ≠ Timeout.
Proof.
  intros Hrec. revert taken.
  induction actions as [|a actions IH]; intros taken; simpl; [done|].
  destruct (do_action p s a) as [s'|]; [|done].
  destruct (bool_decide (s' ∉ taken) && (length steps <? 45)) eqn:Hguard;
    [|done].
  apply andb_prop in Hguard as [_ Hlen%Nat.ltb_lt].
  specialize (Hrec Hlen s' a ({[s']} ∪ taken)).
  destruct (rec s' (steps ++ [a]) ({[s']} ∪ taken)) as [[route taken2]| |];
    [|done..].
  by destruct (truthy route).
Qed.

Lemma dfs_no_timeout (fuel : nat) (s : State) (steps : list Action)
    (taken : gset State) :
  0 < fuel → 46 ≤ fuel + length steps →
  dfs p fuel s steps taken ≠ Timeout.
Proof.
  revert s steps taken.
  induction fuel as [|fuel IH]; intros s steps taken; [lia|].
  intros _ Hfuel. simpl. destruct (is_goal p s); [done|].
  apply dfs_for_no_timeout. intros Hlen s' a taken'.
  apply IH; rewrite ?length_app; simpl; lia.
Qed.

(** At the bound no successor is entered: the loop only runs [do_action]
    and falls through. *)
Lemma dfs_for_at_bound rec (s : State) (steps actions : list Action)
    (taken : gset State) :
  45 ≤ length steps →
  (∀ a, a ∈ actions → is_Some (do_action p s a)) →
  dfs_for p rec s steps actions taken = Ret (None, taken).
Proof.
  intros Hlen. induction actions as [|a actions IH]; intros Hdo; simpl;
    [done|].
  destruct (Hdo a) as [s' ->]; [by left|].
  replace (length steps <? 45) with false by (symmetry; apply Nat.ltb_ge; lia).
  rewrite andb_false_r. apply IH. intros; apply Hdo; by right.
Qed.

(** *** The ghost log *)

Lemma dfs_for_log_erase rec rec_log (s : State) (steps actions : list Action)
    (taken : gset State) (log : list State) :
  (∀ s' steps' taken' log',
     erase_log (rec_log s' steps' taken' log') = rec s' steps' taken') →
  erase_log (dfs_for_log p rec_log s steps actions taken log)
  = dfs_for p rec s steps actions taken.
Proof.
  intros Hrec. revert taken log.
  induction actions as [|a actions IH]; intros taken log; simpl; [done|].
  destruct (do_action p s a) as [s'|]; [|done].
  destruct (bool_decide (s' ∉ taken) && (length steps <? 45)); [|done].
  rewrite <- (Hrec s' (steps ++ [a]) ({[s']} ∪ taken) log).
  destruct (rec_log s' (steps ++ [a]) ({[s']} ∪ taken) log)
    as [[[route taken2] log2]| |]; simpl; [|done..].
  by destruct (truthy route).
Qed.

Lemma dfs_log_erase (fuel : nat) (s : State) (steps : list Action)
    (taken : gset State) (log : list State) :
  erase_log (dfs_log p fuel s steps taken log) = dfs p fuel s steps taken.
Proof.
  revert s steps taken log.
  induction fuel as [|fuel IH]; intros s steps taken log; simpl; [done|].
  destruct (is_goal p s); [done|]. by apply dfs_for_log_erase.
Qed.


Lemma dfs_for_log_inv rec_log (s : State) (steps actions : list Action)
    (taken : gset State) (log : list State) route taken' log' :
  (∀ s' steps' taken1 log1 route1 taken2 log2,
     log_inv taken1 log1 → s' ∈ taken1 → s' ∉ log1 →
     rec_log s' steps' taken1 log1 = Ret (route1, taken2, log2) →
     log_inv taken2 log2) →
  log_inv taken log →
  dfs_for_log p rec_log s steps actions taken log = Ret (route, taken', log') →
  log_inv taken' log'.
Proof.
  intros Hrec. revert taken log.
  induction actions as [|a actions IH]; intros taken log Hinv; simpl.
  { by intros [= <- <- <-]. }
  destruct (do_action p s a) as [s'|]; [|done].
  destruct (bool_decide (s' ∉ taken) && (length steps <? 45)) eqn:Hguard;
    [|by apply IH].
  apply andb_prop in Hguard as [Hnew%bool_decide_eq_true _].
  destruct (rec_log s' (steps ++ [a]) ({[s']} ∪ taken) log)
    as [[[route1 taken2] log2]| |] eqn:Hcall; [|done..].
  apply Hrec in Hcall.
  - destruct (truthy route1); [by intros [= <- <- <-]|by apply IH].
  - destruct Hinv as [Hnd Hsub]. split; [done|]. set_solver.
  - set_solver.
  - destruct Hinv as [_ Hsub]. intros Hin. by apply Hnew, Hsub.
Qed.

Lemma dfs_log_inv (fuel : nat) (s : State) (steps : list Action)
    (taken : gset State) (log : list State) route taken' log' :
  log_inv taken log → s ∈ taken → s ∉ log →
  dfs_log p fuel s steps taken log = Ret (route, taken', log') →
  log_inv taken' log'.
Proof.
  revert s steps taken log route taken' log'.
  induction fuel as [|fuel IH]; intros s steps taken log route taken' log';
    simpl; [done|].
  intros [Hnd Hsub] Hs Hfresh.
  assert (log_inv taken (s :: log)).
  { split; [by constructor|]. intros x [->|Hx]%elem_of_cons; auto. }
  destruct (is_goal p s); [by intros [= <- <- <-]|].
  apply dfs_for_log_inv; [|done]. intros ???????. apply IH.
Qed.

End DfsProps.

(** ** Breadth-first search *)

Section BfsProps.
Context {State : Type} `{Countable State}.
Variable p : Problem State.

Abbreviation init := (initial_state p).


Lemma bfs_for_sound (s0 : State) (r0 actions : list Action)
    (visited : list (list Action * State)) (taken : gset State) :
  reaches p init r0 s0 →
  (∀ a, a ∈ actions → a ∈ available_actions p s0) →
  bfs_sound_inv p visited taken →
  match bfs_for p s0 r0 actions visited taken with
  | Returned route =>
      route ≠ [] ∧ ∃ g, reaches p init route g ∧ is_goal p g = true
  | Next visited' taken' => bfs_sound_inv p visited' taken'
  | Fault _ => True
  end.
Proof.
  intros Hr0. revert visited taken.
  induction actions as [|a actions IH]; intros visited taken Hav Hinv; simpl;
    [done|].
  destruct (do_action p s0 a) as [s|] eqn:Hdo; [|done].
  assert (Hav' : ∀ a', a' ∈ actions → a' ∈ available_actions p s0)
    by (intros; apply Hav; by right).
  assert (Hrs : reaches p init (r0 ++ [a]) s).
  { eapply reaches_snoc; eauto. apply Hav. by left. }
  destruct Hinv as [Hreach Hng].
  case_bool_decide as Hnew; simpl.
  - destruct (is_goal p s) eqn:Hgoal.
    + rewrite last_snoc. split; [by destruct r0|eauto].
    + apply IH; [done|]. split.
      * intros r s' [Hin|Hin%list_elem_of_singleton]%elem_of_app; [auto|].
        by simplify_eq.
      * intros s' [->%elem_of_singleton|Hin]%elem_of_union; auto.
  - rewrite (Hng _ Hnew). by apply IH.
Qed.

Lemma bfs_loop_sound (fuel : nat) (st : bfs_state) (plan : list Action) :
  bfs_sound_inv p (visited st) (bfs_taken st) →
  bfs_loop p fuel st = Ret plan →
  plan ≠ [] ∧ ∃ g, reaches p init plan g ∧ is_goal p g = true.
Proof.
  revert st. induction fuel as [|fuel IH]; intros st Hinv; simpl; [done|].
  unfold bfs_step.
  destruct (visited st !! idx st) as [[r0 s0]|] eqn:Hidx; [|done].
  pose proof (bfs_for_sound s0 r0 (available_actions p s0)
                (visited st) (bfs_taken st)) as Hfor.
  destruct (bfs_for p s0 r0 (available_actions p s0) (visited st)
              (bfs_taken st)) as [route|visited' taken'|e].
  - intros [= <-]. apply Hfor; auto.
    apply Hinv. eapply list_elem_of_lookup_2; eauto.
  - apply IH. simpl. apply Hfor; auto.
    apply Hinv. eapply list_elem_of_lookup_2; eauto.
  - done.
Qed.

Lemma bfs_sound (fuel : nat) (plan : list Action) :
  bfs p fuel = Ret plan →
  plan ≠ [] ∧ ∃ g, reaches p init plan g ∧ is_goal p g = true.
Proof.
  apply bfs_loop_sound. split; simpl.
  - intros r s [= -> ->]%list_elem_of_singleton. apply reaches_nil.
  - set_solver.
Qed.

(** *** Shortest plans *)


Lemma closed_entry_mono visited visited' e acts :
  closed_entry p visited e acts → closed_entry p (visited ++ visited') e acts.
Proof.
  intros Hc a Ha. destruct (Hc a Ha) as (s' & r' & ? & ? & ?).
  exists s', r'. split_and!; [done| |done]. apply elem_of_app. by left.
Qed.

(** Every state within reach of [length e0.1] actions is listed, with a
    route that is not longer. *)
Lemma bfs_level visited taken idx e0 :
  bfs_level_inv p visited taken idx → visited !! idx = Some e0 →
  ∀ plan s, reaches p init plan s → length plan ≤ length e0.1 →
    ∃ r, (r, s) ∈ visited ∧ length r ≤ length plan.
Proof.
  intros Hinv Hidx plan.
  induction plan as [|a plan IH] using rev_ind; intros s Hreach Hlen.
  - destruct Hreach as [_ [= <-]]. exists []. split; [|done].
    eapply list_elem_of_lookup_2, (inv_first p _ _ _ Hinv).
  - apply reaches_snoc_inv in Hreach as (s1 & Hr1 & Ha & Hd).
    rewrite length_app in Hlen |- *. simpl in *.
    destruct (IH s1 Hr1) as (r1 & Hin1 & Hlen1); [lia|].
    apply list_elem_of_lookup_1 in Hin1 as [j Hj].
    assert (j < idx) as Hlt.
    { destruct (decide (j < idx)); [done|].
      pose proof (inv_sorted p _ _ _ Hinv idx j e0 (r1, s1)) as Hs.
      simpl in Hs. specialize (Hs ltac:(lia) Hidx Hj). lia. }
    destruct (inv_closed p _ _ _ Hinv j (r1, s1) Hlt Hj a Ha)
      as (s' & r' & Hd' & Hin' & Hlen').
    simpl in *. simplify_eq. exists r'. split; [done|lia].
Qed.

Lemma bfs_for_level (idx : nat) (s0 : State) (r0 done actions : list Action)
    (visited : list (list Action * State)) (taken : gset State) :
  bfs_level_inv p visited taken idx →
  visited !! idx = Some (r0, s0) →
  closed_entry p visited (r0, s0) done →
  match bfs_for p s0 r0 actions visited taken with
  | Returned route =>
      ∀ plan g, reaches p init plan g → is_goal p g = true →
                length route ≤ length plan
  | Next visited' taken' =>
      bfs_level_inv p visited' taken' idx ∧
      visited' !! idx = Some (r0, s0) ∧
      closed_entry p visited' (r0, s0) (done ++ actions)
  | Fault _ => True
  end.
Proof.
  revert done visited taken.
  induction actions as [|a actions IH]; intros done visited taken Hinv Hidx Hdone;
    simpl.
  { by rewrite app_nil_r. }
  destruct (do_action p s0 a) as [s|] eqn:Hdo; [|done].
  assert (Hshort : ∀ plan g, reaches p init plan g → is_goal p g = true →
                             length r0 + 1 ≤ length plan).
  { intros plan g Hreach Hgoal.
    destruct (decide (length plan ≤ length r0)) as [Hle|]; [|lia].
    destruct (bfs_level _ _ _ _ Hinv Hidx plan g Hreach Hle) as (r & Hin & _).
    rewrite (inv_nongoal p _ _ _ Hinv _ _ Hin) in Hgoal. done. }
  replace (done ++ a :: actions) with ((done ++ [a]) ++ actions)
    by (by rewrite <- app_assoc).
  case_bool_decide as Hnew; simpl.
  - destruct (is_goal p s) eqn:Hgoal.
    { rewrite last_snoc. intros plan g Hreach Hg.
      rewrite length_app. simpl. eauto. }
    apply IH.
    + pose proof (lookup_lt_Some _ _ _ Hidx) as Hlt.
      destruct Hinv as [Hfirst Hng Htaken Hsorted Hbound Hclosed].
      split.
      * rewrite lookup_app_l by lia. done.
      * intros r s' [Hin|Hin%list_elem_of_singleton]%elem_of_app; [eauto|].
        by simplify_eq.
      * intros s' [->%elem_of_singleton|Hin]%elem_of_union.
        -- eexists. apply elem_of_app. right. by left.
        -- destruct (Htaken _ Hin) as [r Hr]. exists r.
           apply elem_of_app. by left.
      * intros i j ei ej Hij Hi Hj.
        apply lookup_snoc_Some in Hj as [[Hjlt Hj]|[-> <-]].
        -- rewrite lookup_app_l in Hi by lia. eauto.
        -- apply lookup_snoc_Some in Hi as [[_ Hi]|[_ <-]]; [|done].
           simpl. rewrite length_app. simpl.
           apply (Hbound (r0, s0) ei Hidx). by eapply list_elem_of_lookup_2.
      * intros e0 e He0 He. rewrite lookup_app_l in He0 by lia.
        apply elem_of_app in He as [He|He%list_elem_of_singleton]; [eauto|].
        subst e. simplify_eq. simpl. rewrite length_app. simpl. lia.
      * intros j e Hj He. rewrite lookup_app_l in He by lia.
        apply closed_entry_mono. eauto.
    + apply lookup_app_l_Some. done.
    + intros a' [Ha' | ->%list_elem_of_singleton]%elem_of_app.
      * by apply (closed_entry_mono _ _ _ _ Hdone).
      * exists s, (r0 ++ [a]). simpl. split_and!; [done| |].
        -- apply elem_of_app. right. by left.
        -- rewrite length_app. simpl. lia.
  - destruct (inv_taken p _ _ _ Hinv s Hnew) as [r Hr].
    rewrite (inv_nongoal p _ _ _ Hinv _ _ Hr).
    apply IH; [done..|].
    intros a' [Ha' | ->%list_elem_of_singleton]%elem_of_app; [by apply Hdone|].
    exists s, r. simpl. split_and!; [done..|].
    apply (inv_bound p _ _ _ Hinv (r0, s0) (r, s) Hidx Hr).
Qed.

Lemma bfs_loop_shortest (fuel : nat) (st : bfs_state) (route : list Action) :
  bfs_level_inv p (visited st) (bfs_taken st) (idx st) →
  bfs_loop p fuel st = Ret route →
  ∀ plan g, reaches p init plan g → is_goal p g = true →
            length route ≤ length plan.
Proof.
  revert st. induction fuel as [|fuel IH]; intros st Hinv; simpl; [done|].
  unfold bfs_step.
  destruct (visited st !! idx st) as [[r0 s0]|] eqn:Hidx; [|done].
  pose proof (bfs_for_level (idx st) s0 r0 [] (available_actions p s0)
                (visited st) (bfs_taken st) Hinv Hidx) as Hfor.
  destruct (bfs_for p s0 r0 (available_actions p s0) (visited st)
              (bfs_taken st)) as [route'|visited' taken'|e]; [| |done].
  - intros [= <-]. apply Hfor. by intros a Ha%elem_of_nil.
  - apply IH. simpl.
    destruct Hfor as (Hinv' & Hidx' & Hclosed'); [by intros a Ha%elem_of_nil|].
    destruct Hinv' as [Hfirst Hng Htaken Hsorted Hbound Hclosed].
    split; auto.
    + intros e0 e He0 He.
      pose proof (Hsorted (idx st) (idx st + 1) (r0, s0) e0
                    ltac:(lia) Hidx' He0) as Hs.
      pose proof (Hbound (r0, s0) e Hidx' He) as Hb. simpl in *. lia.
    + intros j e Hj He. destruct (decide (j = idx st)) as [->|]; [|].
      * simplify_eq. done.
      * apply (Hclosed j); [lia|done].
Qed.

Lemma bfs_shortest (fuel : nat) (route : list Action) :
  is_goal p init = false →
  bfs p fuel = Ret route →
  ∀ plan g, reaches p init plan g → is_goal p g = true →
            length route ≤ length plan.
Proof.
  intros Hinit. apply bfs_loop_shortest. split; simpl.
  - done.
  - intros r s [= -> ->]%list_elem_of_singleton. done.
  - set_solver.
  - intros i j ei ej _ [-> <-]%list_lookup_singleton_Some
      [-> <-]%list_lookup_singleton_Some. done.
  - intros e0 e [= <-] ->%list_elem_of_singleton. simpl. lia.
  - lia.
Qed.

(** When no goal is within reach [bfs] never returns: it can only raise or
    run on. *)
Lemma bfs_unreachable_never_returns (fuel : nat) (plan : list Action) :
  (∀ plan' g, reaches p init plan' g → is_goal p g = false) →
  bfs p fuel ≠ Ret plan.
Proof.
  intros Hnone Hbfs. apply bfs_sound in Hbfs as (_ & g & Hr & Hg).
  by rewrite (Hnone _ _ Hr) in Hg.
Qed.

(** *** What the set does guarantee *)

(** Apart from the entry the list starts with, [visited] lists exactly the
    states of the set, each once; the list and the set only grow. *)
Lemma bfs_for_listed_once (s0 : State) (r0 actions : list Action)
    (e0 : list Action * State) (v : list (list Action * State))
    (taken : gset State) :
  NoDup v.*2 → (∀ s, s ∈ taken ↔ s ∈ v.*2) →
  match bfs_for p s0 r0 actions (e0 :: v) taken with
  | Next visited' taken' =>
      ∃ v', visited' = e0 :: v' ∧ NoDup v'.*2 ∧
            (∀ s, s ∈ taken' ↔ s ∈ v'.*2) ∧
            v `prefix_of` v' ∧ taken ⊆ taken'
  | _ => True
  end.
Proof.
  revert v taken.
  induction actions as [|a actions IH]; intros v taken Hnd Hiff; simpl.
  { exists v. by split_and!. }
  destruct (do_action p s0 a) as [s|]; [|done].
  case_bool_decide as Hnew; simpl.
  - destruct (is_goal p s).
    { by destruct (list.last _) as [[??]|]. }
    change (e0 :: v ++ [(r0 ++ [a], s)]) with (e0 :: (v ++ [(r0 ++ [a], s)])).
    specialize (IH (v ++ [(r0 ++ [a], s)]) ({[s]} ∪ taken)).
    destruct (bfs_for p s0 r0 actions (e0 :: v ++ [(r0 ++ [a], s)])
                ({[s]} ∪ taken)); [done| |done].
    destruct IH as (v' & -> & Hnd' & Hiff' & Hpre & Hsub).
    + rewrite fmap_app. apply list.NoDup_app. split_and!; [done| |].
      * intros x Hx ->%list_elem_of_singleton. by apply Hnew, Hiff.
      * apply NoDup_singleton.
    + intros s'. rewrite fmap_app, elem_of_app, elem_of_union, Hiff.
      simpl. rewrite elem_of_singleton, list_elem_of_singleton. tauto.
    + exists v'. split_and!; [done..| |set_solver].
      by eapply prefix_app_l.
  - destruct (is_goal p s); [by destruct (list.last _) as [[??]|]|].
    by apply IH.
Qed.

Lemma bfs_reachable_listed_once (st : bfs_state) :
  bfs_reachable p st →
  ∃ v, visited st = ([], init) :: v ∧ NoDup v.*2 ∧
       ∀ s, s ∈ bfs_taken st ↔ s ∈ v.*2.
Proof.
  induction 1 as [|st st' _ (v & Hv & Hnd & Hiff) Hstep].
  - exists []. simpl. split_and!; [done|constructor|set_solver].
  - unfold bfs_step in Hstep.
    destruct (visited st !! idx st) as [[r0 s0]|]; [|done].
    pose proof (bfs_for_listed_once s0 r0 (available_actions p s0)
                  ([], init) v (bfs_taken st) Hnd Hiff) as Hfor.
    rewrite Hv in Hstep.
    destruct (bfs_for p s0 r0 (available_actions p s0) (([], init) :: v)
                (bfs_taken st)); [done| |done].
    injection Hstep as <-. simpl.
    destruct Hfor as (v' & -> & ? & ? & _). by exists v'.
Qed.

(** More fuel does not change a result. *)
Lemma bfs_loop_fuel_mono (fuel k : nat) (st : bfs_state) r :
  bfs_loop p fuel st = r → r ≠ Timeout → bfs_loop p (fuel + k) st = r.
Proof.
  revert st. induction fuel as [|fuel IH]; intros st; simpl.
  - by intros <-.
  - destruct (bfs_step p st); [done|]. apply IH.
Qed.

End BfsProps.

(** ** The order of the priority queue *)

Lemma ascii_compare_refl (a : Ascii.ascii) : Ascii.compare a a = Eq.
Proof. apply N.compare_refl. Qed.

Lemma ascii_compare_lt_trans (a b c : Ascii.ascii) :
  Ascii.compare a b = Lt → Ascii.compare b c = Lt → Ascii.compare a c = Lt.
Proof. unfold Ascii.compare. rewrite !N.compare_lt_iff. lia. Qed.

Lemma string_compare_refl (s : string) : String.compare s s = Eq.
Proof.
  induction s as [|c s IH]; simpl; [done|]. by rewrite ascii_compare_refl.
Qed.

Lemma string_compare_lt_trans (s1 s2 s3 : string) :
  String.compare s1 s2 = Lt → String.compare s2 s3 = Lt →
  String.compare s1 s3 = Lt.
Proof.
  revert s2 s3.
  induction s1 as [|c1 s1 IH]; intros [|c2 s2] [|c3 s3]; simpl; try done.
  destruct (Ascii.compare c1 c2) eqn:H12; [|clear IH|done];
    destruct (Ascii.compare c2 c3) eqn:H23; try done.
  - apply Ascii.compare_eq_iff in H12, H23. subst.
    rewrite ascii_compare_refl. apply IH.
  - apply Ascii.compare_eq_iff in H12. subst. by rewrite H23.
  - apply Ascii.compare_eq_iff in H23. subst. by rewrite H12.
  - by rewrite (ascii_compare_lt_trans _ _ _ H12 H23).
Qed.

Lemma route_compare_eq (r1 r2 : list Action) :
  route_compare r1 r2 = Eq ↔ r1 = r2.
Proof.
  revert r2. induction r1 as [|a1 r1 IH]; intros [|a2 r2]; simpl; try done.
  destruct (String.compare a1 a2) eqn:Ha.
  - apply String.compare_eq_iff in Ha as ->. rewrite IH. naive_solver.
  - split; [done|]. intros [= -> _]. by rewrite string_compare_refl in Ha.
  - split; [done|]. intros [= -> _]. by rewrite string_compare_refl in Ha.
Qed.

Lemma route_compare_antisym (r1 r2 : list Action) :
  route_compare r2 r1 = CompOpp (route_compare r1 r2).
Proof.
  revert r2. induction r1 as [|a1 r1 IH]; intros [|a2 r2]; simpl; try done.
  rewrite (String.compare_antisym a2 a1).
  destruct (String.compare a1 a2); simpl; auto.
Qed.

Lemma route_compare_lt_trans (r1 r2 r3 : list Action) :
  route_compare r1 r2 = Lt → route_compare r2 r3 = Lt →
  route_compare r1 r3 = Lt.
Proof.
  revert r2 r3.
  induction r1 as [|a1 r1 IH]; intros [|a2 r2] [|a3 r3]; simpl; try done.
  destruct (String.compare a1 a2) eqn:H12; [|clear IH|done];
    destruct (String.compare a2 a3) eqn:H23; try done.
  - apply String.compare_eq_iff in H12, H23. subst.
    rewrite string_compare_refl. apply IH.
  - apply String.compare_eq_iff in H12. subst. by rewrite H23.
  - apply String.compare_eq_iff in H23. subst. by rewrite H12.
  - by rewrite (string_compare_lt_trans _ _ _ H12 H23).
Qed.

Section QueueOrder.
Context {State : Type}.
Implicit Types e : entry State.

Lemma entry_lt_spec e1 e2 :
  entry_lt e1 e2 = true ↔
  e_cost e1 < e_cost e2 ∨
  (e_cost e1 = e_cost e2 ∧ route_compare (e_route e1) (e_route e2) = Lt).
Proof.
  unfold entry_lt.
  rewrite orb_true_iff, andb_true_iff, Nat.ltb_lt, Nat.eqb_eq.
  destruct (route_compare (e_route e1) (e_route e2)); naive_solver.
Qed.

Lemma entry_lt_trans e1 e2 e3 :
  entry_lt e1 e2 = true → entry_lt e2 e3 = true → entry_lt e1 e3 = true.
Proof.
  rewrite !entry_lt_spec. intros [?|[? H12]] [?|[? H23]]; try (left; lia).
  right. split; [lia|]. by eapply route_compare_lt_trans.
Qed.

(** Two entries that are not ordered either way have the same cost and the
    same route. *)
Lemma entry_lt_total e1 e2 :
  entry_lt e1 e2 = false → entry_lt e2 e1 = false →
  e_cost e1 = e_cost e2 ∧ e_route e1 = e_route e2.
Proof.
  intros H12 H21.
  apply not_true_iff_false in H12, H21. rewrite entry_lt_spec in H12, H21.
  assert (e_cost e1 = e_cost e2) as Hc by lia. split; [done|].
  apply route_compare_eq.
  destruct (route_compare (e_route e1) (e_route e2)) eqn:Hr; [done| |].
  - destruct H12. auto.
  - destruct H21. right. split; [done|].
    by rewrite route_compare_antisym, Hr.
Qed.

Lemma entry_lt_same_key e1 e2 e3 :
  e_cost e1 = e_cost e2 → e_route e1 = e_route e2 →
  entry_lt e1 e3 = entry_lt e2 e3.
Proof. unfold entry_lt. by intros -> ->. Qed.

Lemma entry_not_lt_trans e1 e2 e3 :
  entry_lt e2 e1 = false → entry_lt e3 e2 = false → entry_lt e3 e1 = false.
Proof.
  intros H21 H32. destruct (entry_lt e3 e1) eqn:H31; [|done].
  destruct (entry_lt e2 e3) eqn:H23.
  - by rewrite (entry_lt_trans _ _ _ H23 H31) in H21.
  - destruct (entry_lt_total _ _ H23 H32) as [Hc Hr].
    by rewrite (entry_lt_same_key _ _ _ Hc Hr), H31 in H21.
Qed.

Lemma get_None (q : list (entry State)) : get q = None ↔ q = [].
Proof.
  destruct q as [|e q]; simpl; [done|].
  destruct (get q) as [[m others]|]; [|done]. by destruct (entry_lt m e).
Qed.

Lemma get_Some (q q' : list (entry State)) (e : entry State) :
  get q = Some (e, q') → ∀ x, x ∈ q ↔ x = e ∨ x ∈ q'.
Proof.
  revert q' e. induction q as [|e0 q IH]; intros q' e; simpl; [done|].
  destruct (get q) as [[m others]|] eqn:Hq.
  - specialize (IH _ _ eq_refl).
    destruct (entry_lt m e0); intros [= <- <-] x;
      rewrite !elem_of_cons, ?IH; tauto.
  - apply get_None in Hq as ->. intros [= <- <-] x.
    rewrite elem_of_cons. tauto.
Qed.


(** [get] hands out an entry that no queued entry is below, and leaves the
    others in the queue. *)
Lemma get_least (q q' : list (entry State)) e :
  get q = Some (e, q') → ∀ x, x ∈ q' → entry_lt x e = false.
Proof.
  revert q' e. induction q as [|e0 q IH]; intros q' e; simpl; [done|].
  destruct (get q) as [[m others]|] eqn:Hq.
  - specialize (IH _ _ eq_refl).
    destruct (entry_lt m e0) eqn:Hlt; intros [= <- <-] x Hx.
    + apply elem_of_cons in Hx as [->|Hx]; [|by apply IH].
      destruct (entry_lt e0 m) eqn:Hgt; [|done].
      pose proof (entry_lt_trans _ _ _ Hlt Hgt) as Hirr.
      apply entry_lt_spec in Hirr as [?|[_ Hr]]; [lia|].
      assert (route_compare (e_route m) (e_route m) = Eq) as Heq
        by by apply route_compare_eq.
      congruence.
    + assert (Hmem : x = m ∨ x ∈ others) by by apply (get_Some _ _ _ Hq).
      destruct Hmem as [->|Hx']; [done|].
      eapply entry_not_lt_trans; [exact Hlt|]. by apply IH.
  - intros [= <- <-] x Hx. by apply elem_of_nil in Hx.
Qed.

Lemma get_perm (q q' : list (entry State)) e :
  get q = Some (e, q') → q ≡ₚ e :: q'.
Proof.
  revert q' e. induction q as [|e0 q IH]; intros q' e; simpl; [done|].
  destruct (get q) as [[m others]|] eqn:Hq.
  - specialize (IH _ _ eq_refl).
    destruct (entry_lt m e0); intros [= <- <-]; [|done].
    rewrite IH. apply Permutation_swap.
  - apply get_None in Hq as ->. by intros [= <- <-].
Qed.

End QueueOrder.

(** ** A* *)

Section AstarProps.
Context {State : Type} `{Countable State}.
Variable p : Problem State.

Abbreviation init := (initial_state p).

Lemma closed_mono (T T' : gset State) (s : State) (acts : list Action) :
  T ⊆ T' → closed p T s acts → closed p T' s acts.
Proof.
  intros Hsub Hc a Ha. destruct (Hc a Ha) as (s' & ? & ?).
  exists s'. split; [done|]. by apply Hsub.
Qed.

Lemma pending_mono (q q' : list (entry State)) (s : State) :
  pending q s → pending (q ++ q') s.
Proof.
  intros (e & ? & ?). exists e. split; [|done]. apply elem_of_app; by left.
Qed.

(** The [for] loop over the actions of the entry [e] taken from the queue:
    [done] are the actions already gone through. *)
Lemma astar_for_inv (e : entry State) (done actions : list Action)
    (q : list (entry State)) (T : gset State) q' store' :
  e_taken e = 0 →
  reaches p init (e_route e) (e_state e) →
  (∀ a, a ∈ actions → a ∈ available_actions p (e_state e)) →
  (∀ x, x ∈ q → e_taken x = 0 ∧ reaches p init (e_route x) (e_state x)) →
  closed p T (e_state e) done →
  (∀ s, s ∈ T → s = e_state e ∨ pending q s ∨
                (is_goal p s = false ∧ closed p T s (available_actions p s))) →
  astar_for p e actions q [T] = Ret (q', store') →
  ∃ T', store' = [T'] ∧ T ⊆ T' ∧
    (∀ x, x ∈ q' → e_taken x = 0 ∧ reaches p init (e_route x) (e_state x)) ∧
    closed p T' (e_state e) (done ++ actions) ∧
    (∀ s, s ∈ T' → s = e_state e ∨ pending q' s ∨
                   (is_goal p s = false ∧ closed p T' s (available_actions p s))).
Proof.
  intros Href Hreach. revert done q T.
  induction actions as [|a actions IH]; intros done q T Hav Hq Hdone HT; simpl.
  { intros [= <- <-]. exists T. rewrite app_nil_r. by split_and!. }
  destruct (do_action p (e_state e) a) as [s|] eqn:Hdo; [|done].
  assert (Hav' : ∀ a', a' ∈ actions → a' ∈ available_actions p (e_state e))
    by (intros; apply Hav; by right).
  replace (done ++ a :: actions) with ((done ++ [a]) ++ actions)
    by (by rewrite <- app_assoc).
  rewrite Href. unfold deref at 1. simpl.
  case_bool_decide as Hnew.
  - unfold set_add, deref, put. simpl. intros Hfor.
    apply (IH (done ++ [a])) in Hfor
      as (T' & -> & Hsub & Hq' & Hc' & HT'); auto.
    + exists T'. split_and!; auto. set_solver.
    + intros x [Hx| ->%list_elem_of_singleton]%elem_of_app; [auto|]. simpl.
      split; [done|]. eapply reaches_snoc; eauto. apply Hav. by left.
    + intros a' [Ha' | ->%list_elem_of_singleton]%elem_of_app.
      * eapply closed_mono; [|exact Hdone|exact Ha']. set_solver.
      * exists s. split; [done|set_solver].
    + intros s' [->%elem_of_singleton|Hs']%elem_of_union.
      * right; left. eexists. split; [apply elem_of_app; right; by left|done].
      * destruct (HT s' Hs') as [->|[Hp|[Hg Hc]]]; auto.
        -- right; left. by apply pending_mono.
        -- right; right. split; [done|].
           eapply closed_mono; [|exact Hc]. set_solver.
  - intros Hfor.
    apply (IH (done ++ [a])) in Hfor
      as (T' & -> & Hsub & Hq' & Hc' & HT'); auto.
    + exists T'. by split_and!.
    + intros a' [Ha' | ->%list_elem_of_singleton]%elem_of_app; [auto|].
      exists s. by split.
Qed.

Lemma astar_step_inv (st st' : astar_state) :
  astar_inv p st → astar_step p st = inr st' → astar_inv p st'.
Proof.
  intros [Hrefs Hvar (T & Hstore & Hinit & HT) Hreach]. unfold astar_step.
  destruct (get (queue st)) as [[e q]|] eqn:Hget; [|done].
  pose proof (get_Some _ _ _ Hget) as Hmem.
  destruct (is_goal p (e_state e)) eqn:Hgoal; [done|].
  destruct (astar_for p e (available_actions p (e_state e)) q (store st))
    as [[q' store']| |] eqn:Hfor; [|done..].
  intros [= <-]. rewrite Hstore in Hfor.
  assert (He : e ∈ queue st) by (apply Hmem; by left).
  apply (astar_for_inv e []) in Hfor
    as (T' & -> & Hsub & Hq' & Hc' & HT'); auto.
  - split; simpl.
    + intros x Hx. by apply Hq'.
    + auto.
    + exists T'. split_and!; [done|set_solver|].
      intros s Hs. destruct (HT' s Hs) as [->|[?|?]]; auto.
    + intros x Hx. by apply Hq'.
  - intros x Hx. split; [apply Hrefs|apply Hreach]; apply Hmem; by right.
  - by intros a Ha%elem_of_nil.
  - intros s Hs. destruct (HT s Hs) as [(x & Hx & <-)|?]; [|auto].
    apply Hmem in Hx as [->|Hx]; [by left|]. right; left. by exists x.
Qed.

Lemma astar_init_inv : astar_inv p (astar_init p).
Proof.
  split; simpl.
  - by intros e ->%list_elem_of_singleton.
  - done.
  - exists {[init]}. split_and!; [done|set_solver|].
    intros s ->%elem_of_singleton. left. eexists. split; [by left|done].
  - intros e ->%list_elem_of_singleton. apply reaches_nil.
Qed.

Lemma astar_reachable_inv (st : astar_state) :
  astar_reachable p st → astar_inv p st.
Proof.
  induction 1; eauto using astar_init_inv, astar_step_inv.
Qed.

Lemma astar_loop_sound (fuel : nat) (st : astar_state) plan n :
  astar_inv p st → astar_loop p fuel st = Ret (Some plan, n) →
  ∃ g, reaches p init plan g ∧ is_goal p g = true.
Proof.
  revert st. induction fuel as [|fuel IH]; intros st Hinv; simpl; [done|].
  destruct (astar_step p st) as [r|st'] eqn:Hstep;
    [|by apply IH, (astar_step_inv st)].
  intros ->. unfold astar_step in Hstep.
  destruct (get (queue st)) as [[e q]|] eqn:Hget; [|done].
  destruct (is_goal p (e_state e)) eqn:Hgoal.
  - injection Hstep as <- _. exists (e_state e). split; [|done].
    apply (ai_reach p _ Hinv). eapply get_Some; eauto.
  - by destruct (astar_for p e (available_actions p (e_state e)) q (store st))
      as [[??]| |].
Qed.

(** When the queue runs empty the set is closed under the offered actions
    and holds no goal. *)
Lemma astar_loop_complete (fuel : nat) (st : astar_state) n :
  astar_inv p st → astar_loop p fuel st = Ret (None, n) →
  ∀ plan g, reaches p init plan g → is_goal p g = false.
Proof.
  revert st. induction fuel as [|fuel IH]; intros st Hinv; simpl; [done|].
  destruct (astar_step p st) as [r|st'] eqn:Hstep;
    [|by apply IH, (astar_step_inv st)].
  intros ->. unfold astar_step in Hstep.
  destruct (get (queue st)) as [[e q]|] eqn:Hget.
  { destruct (is_goal p (e_state e)); [done|].
    by destruct (astar_for p e (available_actions p (e_state e)) q (store st))
      as [[??]| |]. }
  apply get_None in Hget.
  destruct (ai_store p _ Hinv) as (T & _ & Hinit & HT).
  assert (Hall : ∀ s, s ∈ T →
            is_goal p s = false ∧ closed p T s (available_actions p s)).
  { intros s Hs. destruct (HT s Hs) as [(x & Hx & _)|?]; [|done].
    rewrite Hget in Hx. by apply elem_of_nil in Hx. }
  assert (Hin : ∀ plan g, reaches p init plan g → g ∈ T).
  { induction plan as [|a plan IHp] using rev_ind; intros g Hr.
    - destruct Hr as [_ [= <-]]. done.
    - apply reaches_snoc_inv in Hr as (s' & Hr & Ha & Hd).
      destruct (Hall s' (IHp _ Hr)) as [_ Hc].
      destruct (Hc a Ha) as (g' & Hd' & Hg'). congruence. }
  intros plan g Hr. by apply Hall, (Hin plan).
Qed.

Lemma astar_loop_fuel_mono (fuel k : nat) (st : astar_state) r :
  astar_loop p fuel st = r → r ≠ Timeout → astar_loop p (fuel + k) st = r.
Proof.
  revert st. induction fuel as [|fuel IH]; intros st; simpl.
  - by intros <-.
  - destruct (astar_step p st); [done|]. apply IH.
Qed.

(** Expanding an entry only appends to the queue: the entries still pending
    are left as they were. *)
Lemma astar_for_appends (e : entry State) (actions : list Action)
    (q : list (entry State)) store q' store' :
  astar_for p e actions q store = Ret (q', store') → ∃ new, q' = q ++ new.
Proof.
  revert q store. induction actions as [|a actions IH]; intros q store; simpl.
  { intros [= <- _]. exists []. by rewrite app_nil_r. }
  destruct (do_action p (e_state e) a) as [s|]; [|done].
  case_bool_decide; [|by apply IH].
  intros (new & ->)%IH. unfold put. rewrite <- app_assoc. eauto.
Qed.


(** *** The queue never holds two entries with the same route *)

Lemma prefix_snoc_inv {A} (l1 l2 : list A) (x : A) :
  l1 `prefix_of` l2 ++ [x] → l1 = l2 ++ [x] ∨ l1 `prefix_of` l2.
Proof.
  intros [k Hk]. destruct k as [|y k _] using rev_ind.
  - left. by rewrite app_nil_r in Hk.
  - right. rewrite app_assoc in Hk. apply app_inj_tail in Hk as [-> _].
    by exists k.
Qed.

Lemma routes_antichain_perm (q q' : list (entry State)) :
  q ≡ₚ q' → routes_antichain q → routes_antichain q'.
Proof.
  intros Hperm [Hnd Hpre]. split.
  - by rewrite <- Hperm.
  - intros x y Hx Hy. rewrite <- Hperm in Hx, Hy. by apply Hpre.
Qed.

Lemma astar_for_routes (e : entry State) (done actions : list Action)
    (q0 q : list (entry State)) (T : gset State) q' store' :
  e_taken e = 0 →
  closed p T (e_state e) done →
  NoDup (e_route <$> q) →
  (∀ x, x ∈ q → x ∈ q0 ∨ ∃ a, e_route x = e_route e ++ [a] ∧ a ∈ done) →
  (∀ x, x ∈ q0 → ¬ e_route e `prefix_of` e_route x) →
  astar_for p e actions q [T] = Ret (q', store') →
  NoDup (e_route <$> q') ∧
  (∀ x, x ∈ q' → x ∈ q0 ∨ ∃ a, e_route x = e_route e ++ [a]).
Proof.
  intros Href. revert done q T.
  induction actions as [|a actions IH]; intros done q T Hdone Hnd Hq Hq0; simpl.
  { intros [= <- _]. split; [done|]. intros x Hx.
    destruct (Hq x Hx) as [?|(a & ? & _)]; eauto. }
  destruct (do_action p (e_state e) a) as [s|] eqn:Hdo; [|done].
  rewrite Href. unfold deref at 1. simpl.
  case_bool_decide as Hnew.
  - unfold set_add, deref, put. simpl.
    apply (IH (done ++ [a])); [| | |done].
    + intros a' [Ha' | ->%list_elem_of_singleton]%elem_of_app.
      * eapply closed_mono; [|exact Hdone|exact Ha']. set_solver.
      * exists s. split; [done|set_solver].
    + rewrite fmap_app. apply list.NoDup_app. split_and!; [done| |].
      * intros r (x & -> & Hx)%list_elem_of_fmap Hr%list_elem_of_singleton.
        simpl in Hr. destruct (Hq x Hx) as [Hx0|(a' & Hxa & Ha')].
        -- apply (Hq0 x Hx0). rewrite Hr. by exists [a].
        -- rewrite Hxa in Hr. apply app_inj_tail in Hr as [_ ->].
           destruct (Hdone a Ha') as (s' & Hdo' & Hs'). congruence.
      * simpl. apply NoDup_singleton.
    + intros x [Hx| ->%list_elem_of_singleton]%elem_of_app.
      * destruct (Hq x Hx) as [?|(a' & ? & ?)]; [by left|].
        right. exists a'. split; [done|]. apply elem_of_app. by left.
      * right. exists a. simpl. split; [done|]. apply elem_of_app. right.
        by left.
  - apply (IH (done ++ [a])); [|done| |done].
    + intros a' [Ha' | ->%list_elem_of_singleton]%elem_of_app; [auto|].
      exists s. by split.
    + intros x Hx. destruct (Hq x Hx) as [?|(a' & ? & ?)]; [by left|].
      right. exists a'. split; [done|]. apply elem_of_app. by left.
Qed.

Lemma astar_step_routes (st st' : astar_state) :
  astar_inv p st → routes_antichain (queue st) →
  astar_step p st = inr st' → routes_antichain (queue st').
Proof.
  intros Hinv Hanti. unfold astar_step.
  destruct (get (queue st)) as [[e rest]|] eqn:Hget; [|done].
  destruct (is_goal p (e_state e)); [done|].
  destruct (astar_for p e (available_actions p (e_state e)) rest (store st))
    as [[q' store']| |] eqn:Hfor; [|done..].
  intros [= <-]. simpl.
  destruct (ai_store p _ Hinv) as (T & Hstore & _). rewrite Hstore in Hfor.
  pose proof (routes_antichain_perm _ _ (get_perm _ _ _ Hget) Hanti)
    as [Hnd Hpre].
  rewrite fmap_cons in Hnd. apply list.NoDup_cons in Hnd as [Hfresh Hnd].
  assert (Hincomp : ∀ x, x ∈ rest → ¬ e_route e `prefix_of` e_route x).
  { intros x Hx Hp. apply Hfresh. apply list_elem_of_fmap. exists x.
    split; [|done]. apply Hpre; [by left|by right|done]. }
  apply (astar_for_routes e [] _ rest) in Hfor as [Hnd' Hq']; auto.
  - split; [done|]. intros x y Hx Hy Hp.
    destruct (Hq' x Hx) as [Hx0|[a Hxa]], (Hq' y Hy) as [Hy0|[b Hyb]].
    + apply Hpre; [by right|by right|done].
    + rewrite Hyb in Hp |- *.
      apply prefix_snoc_inv in Hp as [?|Hp]; [done|].
      exfalso. apply Hfresh. apply list_elem_of_fmap. exists x.
      split; [|done]. symmetry. apply Hpre; [by right|by left|done].
    + exfalso. apply (Hincomp y Hy0). rewrite Hxa in Hp.
      by eapply prefix_app_l.
    + apply prefix_length_eq; [done|]. rewrite Hxa, Hyb, !length_app. done.
  - apply (ai_refs p _ Hinv). eapply get_Some; eauto.
  - by intros a Ha%elem_of_nil.
Qed.

Lemma astar_reachable_routes (st : astar_state) :
  astar_reachable p st → routes_antichain (queue st).
Proof.
  induction 1 as [|st st' Hreach IH Hstep].
  - split; simpl; [apply NoDup_singleton|].
    by intros x y ->%list_elem_of_singleton ->%list_elem_of_singleton.
  - eapply astar_step_routes; eauto using astar_reachable_inv.
Qed.

(** The entry handed out by [get] is strictly below every other queued
    entry in the order on (cost, route): the order of Python's tuples never
    has to look past the route, and the least tuple is unique. *)
Lemma astar_get_strictly_least (st : astar_state) e rest :
  astar_reachable p st → get (queue st) = Some (e, rest) →
  ∀ x, x ∈ rest → entry_lt e x = true.
Proof.
  intros Hreach Hget x Hx.
  pose proof (get_least _ _ _ Hget x Hx) as Hge.
  destruct (entry_lt e x) eqn:Hlt; [done|].
  destruct (entry_lt_total _ _ Hlt Hge) as [_ Hroute].
  apply astar_reachable_routes in Hreach.
  pose proof (routes_antichain_perm _ _ (get_perm _ _ _ Hget) Hreach)
    as [Hnd _].
  rewrite fmap_cons in Hnd. apply list.NoDup_cons in Hnd as [Hfresh _].
  destruct Hfresh. rewrite Hroute. apply list_elem_of_fmap. by exists x.
Qed.

End AstarProps.

(** * Main results, for every problem *)

Section MainResults.
Context {State : Type} `{Countable State}.
Variable p : Problem State.

Abbreviation init := (initial_state p).

(** Soundness of the three searches.  Whenever BFS, DFS or A* returns a
    plan, running the plan from the initial state goes through offered
    actions only and ends in a goal state.  When A* returns [None], no state
    within reach of the initial state is a goal.  (Beyond its depth bound
    DFS may return [None] although a goal is within reach, see
    [dfs_misses_reachable_goal].) *)
Theorem search_plans_reach_goal :
  (∀ fuel plan, bfs p fuel = Ret plan →
     ∃ g, reaches p init plan g ∧ is_goal p g = true) ∧
  (∀ fuel plan, DFSAgent p fuel = Ret (Some plan) →
     ∃ g, reaches p init plan g ∧ is_goal p g = true) ∧
  (∀ fuel plan n, astar p fuel = Ret (Some plan, n) →
     ∃ g, reaches p init plan g ∧ is_goal p g = true) ∧
  (∀ fuel n, astar p fuel = Ret (None, n) →
     ∀ plan g, reaches p init plan g → is_goal p g = false).
Proof.
  split_and!.
  - intros fuel plan Hbfs. by apply bfs_sound in Hbfs as [_ ?].
  - intros fuel plan. unfold DFSAgent.
    destruct (dfs p fuel init [] {[init]}) as [[route taken]| |] eqn:Hdfs;
      [|done..].
    intros [= ->]. apply dfs_post_holds in Hdfs as [_ Hplan].
    destruct (Hplan plan eq_refl) as (suffix & g & Heq & Hr & Hg & _).
    simpl in Heq. subst. eauto.
  - intros fuel plan n. apply astar_loop_sound, astar_init_inv.
  - intros fuel n. apply astar_loop_complete, astar_init_inv.
Qed.

(** C7.  DFS stops on every problem: 46 units of fuel, one per nesting level
    of the recursion, are always enough, and more fuel changes nothing.  A
    plan it returns has at most 45 actions.  On a non-goal state reached
    with 45 steps no successor is entered and the call reports failure with
    the set unchanged, exactly as on a non-goal state that offers no
    action. *)
Theorem dfs_depth_bound :
  (∀ fuel, 46 ≤ fuel → DFSAgent p fuel = DFSAgent p 46) ∧
  DFSAgent p 46 ≠ Timeout ∧
  (∀ fuel plan, DFSAgent p fuel = Ret (Some plan) → length plan ≤ 45) ∧
  (∀ fuel s steps taken,
     is_goal p s = false → 45 ≤ length steps →
     (∀ a, a ∈ available_actions p s → is_Some (do_action p s a)) →
     dfs p (S fuel) s steps taken = Ret (None, taken)) ∧
  (∀ fuel s steps taken,
     is_goal p s = false → available_actions p s = [] →
     dfs p (S fuel) s steps taken = Ret (None, taken)).
Proof.
  split_and!.
  - intros fuel Hfuel. unfold DFSAgent.
    rewrite (dfs_fuel_irrelevant p fuel 46); simpl; [done|lia..].
  - unfold DFSAgent.
    pose proof (dfs_no_timeout p 46 init [] {[init]}) as Hno.
    destruct (dfs p 46 init [] {[init]}) as [[route taken]| |]; [done..|].
    exfalso. apply Hno; simpl; [lia..|done].
  - intros fuel plan. unfold DFSAgent.
    destruct (dfs p fuel init [] {[init]}) as [[route taken]| |] eqn:Hdfs;
      [|done..].
    intros [= ->]. apply dfs_post_holds in Hdfs as [_ Hplan].
    destruct (Hplan plan eq_refl) as (_ & _ & _ & _ & _ & Hlen).
    simpl in Hlen. lia.
  - intros fuel s steps taken Hgoal Hlen Hdo. simpl. rewrite Hgoal.
    by apply dfs_for_at_bound.
  - intros fuel s steps taken Hgoal Hacts. simpl. by rewrite Hgoal, Hacts.
Qed.

(** C8.  The one set [taken_states] is handed from call to call and never
    rolled back: a call returns it at least as large as it got it, also
    when it fails; a successor already in the set is passed over; after a
    failed branch the next sibling runs with the set the branch left; and
    over a whole search no state is entered twice, every state entered
    being in the final set. *)
Theorem dfs_visited_set_shared :
  (∀ fuel s steps taken route taken',
     dfs p fuel s steps taken = Ret (route, taken') → taken ⊆ taken') ∧
  (∀ rec s steps a rest taken s',
     do_action p s a = Some s' → s' ∈ taken →
     dfs_for p rec s steps (a :: rest) taken
     = dfs_for p rec s steps rest taken) ∧
  (∀ rec s steps a rest taken s' taken',
     do_action p s a = Some s' → s' ∉ taken → length steps < 45 →
     rec s' (steps ++ [a]) ({[s']} ∪ taken) = Ret (None, taken') →
     dfs_for p rec s steps (a :: rest) taken
     = dfs_for p rec s steps rest taken') ∧
  (∀ fuel route taken' log,
     dfs_log p fuel init [] {[init]} [] = Ret (route, taken', log) →
     dfs p fuel init [] {[init]} = Ret (route, taken') ∧
     NoDup log ∧ ∀ s, s ∈ log → s ∈ taken').
Proof.
  split_and!.
  - intros fuel s steps taken route taken' Hdfs.
    by apply dfs_post_holds in Hdfs as [? _].
  - intros rec s steps a rest taken s' Hdo Hin. simpl. rewrite Hdo.
    by rewrite bool_decide_eq_false_2 by (by intros ?).
  - intros rec s steps a rest taken s' taken' Hdo Hnew Hlen Hrec. simpl.
    rewrite Hdo, bool_decide_eq_true_2 by done.
    apply Nat.ltb_lt in Hlen as ->. simpl. by rewrite Hrec.
  - intros fuel route taken' log Hlog. split.
    + by rewrite <- (dfs_log_erase p fuel init [] {[init]} []), Hlog.
    + eapply dfs_log_inv; [| | |exact Hlog].
      * split; [constructor|]. by intros s ?%elem_of_nil.
      * set_solver.
      * by intros ?%elem_of_nil.
Qed.

(** C4, on the code: a non-goal initial state that offers no action.  DFS
    and A* return [None] at once ([astar] after printing the count 1); BFS
    runs off the end of [visited] in its second iteration and raises
    IndexError. *)
Theorem exhausted_frontier (fuel : nat) :
  available_actions p init = [] → is_goal p init = false →
  bfs p (S (S fuel)) = Raise IndexError ∧
  DFSAgent p (S fuel) = Ret None ∧
  astar p (S (S fuel)) = Ret (None, 1).
Proof.
  intros Hacts Hgoal. split_and!.
  - unfold bfs. simpl. unfold bfs_step. simpl. by rewrite Hacts.
  - unfold DFSAgent. simpl. by rewrite Hgoal, Hacts.
  - unfold astar. simpl. unfold astar_step. simpl. rewrite Hgoal, Hacts.
    simpl. unfold astar_step. simpl. do 2 f_equal.
    exact (size_singleton (C := gset State) init).
Qed.


End MainResults.

(** * Main results on the notebooks' problems *)

Lemma search_plans_reach_goal_witness :
  (∃ g, reaches Vacuum.VacuumProblem Vacuum.initial_state
          ["Suck"; "Right"; "Suck"]%string g ∧ Vacuum.is_goal g = true) ∧
  (∀ plan g, reaches DeadEnd 0 plan g → is_goal DeadEnd g = false).
Proof.
  split.
  - apply (proj1 (proj2 (proj2 (search_plans_reach_goal Vacuum.VacuumProblem)))
             7 _ 7).
    vm_compute. reflexivity.
  - intros plan g.
    apply (proj2 (proj2 (proj2 (search_plans_reach_goal DeadEnd))) 2 1).
    vm_compute. reflexivity.
Defined.

(** C1, on the code.  BFS cannot report that there is no plan.  In the
    one-way street no state within reach is a goal.  DFS and A* report it by
    returning [None]; the loop of BFS has no exit for an exhausted list, so
    its third iteration reads [visited[2]] past the end of the list and
    raises IndexError. *)
Theorem bfs_cannot_report_no_plan :
  (∀ plan g, reaches OneWay 0 plan g → is_goal OneWay g = false) ∧
  (∀ fuel, bfs OneWay (3 + fuel) = Raise IndexError) ∧
  DFSAgent OneWay 46 = Ret None ∧
  (∀ fuel, astar OneWay (3 + fuel) = Ret (None, 2)).
Proof.
  split_and!.
  - apply (astar_loop_complete OneWay 3 (astar_init OneWay) 2).
    + apply astar_init_inv.
    + vm_compute. reflexivity.
  - intros fuel. apply bfs_loop_fuel_mono; [vm_compute; reflexivity|done].
  - vm_compute. reflexivity.
  - intros fuel. apply astar_loop_fuel_mono; [vm_compute; reflexivity|done].
Qed.

(** The depth bound of DFS at work.  In the corridor the goal 46 is two
    actions away from the initial state ("b", then "a"), yet DFS returns
    [None]: it first walks "a" 45 times, which puts state 45 in the set at
    the depth bound, and on return passes over the shortcut "b" because
    state 45 is in the set.  BFS and A* find the two-action plan. *)
Lemma dfs_misses_reachable_goal :
  DFSAgent Corridor 46 = Ret None ∧
  reaches Corridor 0 ["b"; "a"]%string 46 ∧
  is_goal Corridor 46 = true ∧
  bfs Corridor 3 = Ret ["b"; "a"]%string ∧
  astar Corridor 5 = Ret (Some ["b"; "a"]%string, 6).
Proof.
  split_and!; [vm_compute; reflexivity|solve_reaches|reflexivity
              |vm_compute; reflexivity..].
Qed.

(** C2, on the code.  Started in a goal state, BFS does not return the
    empty plan: the initial state is never tested, and the first successor
    that is a goal ends the search, here after "Left", a plan of one action
    where none is needed. *)
Theorem bfs_skips_initial_goal :
  is_goal CleanVacuum (initial_state CleanVacuum) = true ∧
  reaches CleanVacuum (initial_state CleanVacuum) []
    (initial_state CleanVacuum) ∧
  ∀ fuel, bfs CleanVacuum (S fuel) = Ret ["Left"%string].
Proof.
  split_and!; [reflexivity|apply reaches_nil|].
  intros fuel. change (S fuel) with (1 + fuel).
  apply bfs_loop_fuel_mono; [vm_compute; reflexivity|done].
Qed.

(** C3, on the code.  The heuristic of [Detour] is 0, hence admissible and
    consistent.  [astar] returns the plan "y", of cost 10, although "x"
    then "z" reaches the goal at cost 2: expanding the initial state puts
    the goal in the set on behalf of "y", and the cheaper entry for state 1,
    taken from the queue first, then finds its successor already in the
    set. *)
Theorem astar_detour_not_cheapest :
  admissible Detour ∧ consistent Detour ∧
  (∀ fuel, astar Detour (3 + fuel) = Ret (Some ["y"%string], 3)) ∧
  plan_cost Detour 0 ["y"%string] = 10 ∧
  reaches Detour 0 ["x"; "z"]%string 2 ∧
  is_goal Detour 2 = true ∧
  plan_cost Detour 0 ["x"; "z"]%string = 2.
Proof.
  split_and!.
  - intros s plan g _ _. simpl. lia.
  - intros s a s' _ _. simpl. lia.
  - intros fuel. apply astar_loop_fuel_mono; [vm_compute; reflexivity|done].
  - reflexivity.
  - solve_reaches.
  - reflexivity.
  - reflexivity.
Qed.

(** The same on a problem where every action costs 1 and the heuristic,
    not constant, is consistent: [astar] returns a plan of four actions
    although three suffice.  State 4 is put in the set when it is generated
    from state 3, on the longer route, before state 2 is expanded. *)
Lemma astar_ridge_not_shortest :
  admissible Ridge ∧ consistent Ridge ∧
  (∀ fuel, astar Ridge (6 + fuel)
           = Ret (Some ["a"; "c"; "x"; "g"]%string, 6)) ∧
  reaches Ridge 0 ["b"; "x"; "g"]%string 5 ∧
  is_goal Ridge 5 = true.
Proof.
  assert (Hcons : consistent Ridge).
  { intros s a s' Ha Hdo.
    do 5 (destruct s as [|s];
          [simpl in *; decompose_list_elem_of; subst; simpl in *;
           simplify_eq; simpl; lia|]).
    simpl in Ha. by apply elem_of_nil in Ha. }
  split_and!.
  - apply consistent_admissible; [done|].
    intros g Hg%Nat.eqb_eq. by subst.
  - done.
  - intros fuel. apply astar_loop_fuel_mono; [vm_compute; reflexivity|done].
  - solve_reaches.
  - reflexivity.
Qed.

Lemma exhausted_frontier_witness :
  bfs DeadEnd 2 = Raise IndexError ∧
  DFSAgent DeadEnd 1 = Ret None ∧
  astar DeadEnd 2 = Ret (None, 1).
Proof. apply (exhausted_frontier DeadEnd 0); reflexivity. Defined.



(** C6, on the code.  On the vacuum world the set is empty when the loop
    starts, so it does not hold the initial state; the first iteration finds
    the initial state again through "Left", lists it a second time and only
    then adds it to the set. *)
Theorem bfs_lists_initial_state_twice :
  (Vacuum.initial_state ∉ bfs_taken (bfs_init Vacuum.VacuumProblem)) ∧
  ∃ st, bfs_step Vacuum.VacuumProblem (bfs_init Vacuum.VacuumProblem) = inr st ∧
    visited st =
      [([], Vacuum.initial_state);
       (["Left"%string], Vacuum.initial_state);
       (["Suck"%string], (0%Z, [false; true]));
       (["Right"%string], (1%Z, [true; true]))] ∧
    Vacuum.initial_state ∈ bfs_taken st.
Proof.
  split; [apply not_elem_of_empty|].
  eexists. split; [vm_compute; reflexivity|]. split; [reflexivity|].
  compute_done.
Qed.

Lemma dfs_depth_bound_witness :
  DFSAgent Vacuum.VacuumProblem 46 ≠ Timeout ∧
  length ["Suck"; "Right"; "Suck"]%string ≤ 45 ∧
  dfs Corridor 1 45 (replicate 45 "a"%string) (list_to_set (seq 0 46))
  = Ret (None, list_to_set (seq 0 46)) ∧
  dfs DeadEnd 1 0 [] {[0]} = Ret (None, {[0]}).
Proof.
  split_and!.
  - apply (proj1 (proj2 (dfs_depth_bound Vacuum.VacuumProblem))).
  - apply (proj1 (proj2 (proj2 (dfs_depth_bound Vacuum.VacuumProblem))) 46).
    vm_compute. reflexivity.
  - apply (proj1 (proj2 (proj2 (proj2 (dfs_depth_bound Corridor)))) 0).
    + reflexivity.
    + vm_compute. lia.
    + intros a Ha. simpl in Ha. apply list_elem_of_singleton in Ha as ->.
      by eexists.
  - apply (proj2 (proj2 (proj2 (proj2 (dfs_depth_bound DeadEnd)))) 0);
      reflexivity.
Defined.

Lemma dfs_visited_set_shared_witness :
  ∃ taken' log,
    dfs Vacuum.VacuumProblem 46 Vacuum.initial_state []
      {[Vacuum.initial_state]}
    = Ret (Some ["Suck"; "Right"; "Suck"]%string, taken') ∧
    NoDup log ∧ ∀ s, s ∈ log → s ∈ taken'.
Proof.
  eexists _, _.
  apply (proj2 (proj2 (proj2 (dfs_visited_set_shared Vacuum.VacuumProblem)))
           46).
  vm_compute. reflexivity.
Defined.

(** The number of dirty rooms is a consistent heuristic for the vacuum
    world: an action cleans at most one room, and costs 1. *)
Lemma sum_b2n_insert_false (l : list bool) (k : nat) :
  sum_list (Nat.b2n <$> l) ≤ sum_list (Nat.b2n <$> <[k := false]> l) + 1.
Proof.
  revert k. induction l as [|b l IH]; intros [|k]; csimpl; try lia.
  - destruct b; simpl; lia.
  - specialize (IH k). lia.
Qed.

Lemma vacuum_consistent : consistent Vacuum.VacuumProblem.
Proof.
  intros [robot dirty] a s' Ha Hdo. simpl in *.
  unfold Vacuum.available_actions in Ha.
  unfold Vacuum.action_cost, Vacuum.heuristic.
  decompose_list_elem_of; subst; simpl in Hdo.
  - injection Hdo as <-. simpl. lia.
  - unfold py_setitem in Hdo.
    destruct (py_index (length dirty) robot) as [k|]; simplify_eq/=.
    pose proof (sum_b2n_insert_false dirty k). lia.
  - injection Hdo as <-. simpl. lia.
Qed.

Lemma vacuum_admissible : admissible Vacuum.VacuumProblem.
Proof.
  apply consistent_admissible; [apply vacuum_consistent|].
  intros [robot dirty]. simpl. unfold Vacuum.is_goal, Vacuum.heuristic. simpl.
  induction dirty as [|[] dirty IH]; csimpl; auto. done.
Qed.

(** C9.  On the two-room vacuum world with the number of dirty rooms as
    heuristic, which is admissible, [astar] returns Suck, Right, Suck and
    prints 7; with ten times that number as heuristic, which is not
    admissible, it returns the same plan and prints 5.  The plan leads from
    the initial state to a goal. *)
Theorem astar_vacuum_scenarios :
  let plan := ["Suck"; "Right"; "Suck"]%string in
  Vacuum.initial_state = (0%Z, [true; true]) ∧
  admissible Vacuum.VacuumProblem ∧
  (∀ fuel, astar Vacuum.VacuumProblem (6 + fuel) = Ret (Some plan, 7)) ∧
  ¬ admissible Vacuum.VacuumProblem2 ∧
  (∀ fuel, astar Vacuum.VacuumProblem2 (4 + fuel) = Ret (Some plan, 5)) ∧
  5 < 7 ∧
  reaches Vacuum.VacuumProblem2 Vacuum.initial_state plan
    (1%Z, [false; false]) ∧
  Vacuum.is_goal (1%Z, [false; false]) = true.
Proof.
  split_and!.
  - reflexivity.
  - apply vacuum_admissible.
  - intros fuel. apply astar_loop_fuel_mono; [vm_compute; reflexivity|done].
  - intros Hadm.
    specialize (Hadm Vacuum.initial_state ["Suck"; "Right"; "Suck"]%string
                  (1%Z, [false; false])).
    assert (20 ≤ 3) as Habs; [|lia]. apply Hadm; [solve_reaches|reflexivity].
  - intros fuel. apply astar_loop_fuel_mono; [vm_compute; reflexivity|done].
  - lia.
  - solve_reaches.
  - reflexivity.
Qed.

Lemma puzzle_do_action_preserves_wf_witness :
  ∃ position' board',
    Puzzle.do_action Puzzle.initial_state "Down" = Some (position', board') ∧
    Puzzle.swap Puzzle.initial_state.2 4 position' = Some board' ∧
    (0 ≤ 4 ≤ 8)%Z ∧ (0 ≤ position' ≤ 8)%Z ∧
    py_getitem board' position' = Some 0%Z ∧
    board' ≡ₚ [0; 1; 2; 3; 4; 5; 6; 7; 8]%Z ∧
    Puzzle.wf (position', board').
Proof.
  apply (puzzle_do_action_preserves_wf 4 [7; 2; 4; 5; 0; 6; 8; 3; 1]%Z "Down").
  - split_and!; simpl; [lia|lia|reflexivity|reflexivity|solve_Permutation].
  - vm_compute. solve_elem_of.
Defined.

(** * Further properties *)

(** ** Running an agent on its plan *)

Section AgentProps.
Context {State : Type} `{Countable State}.
Variable p : Problem State.

Abbreviation init := (initial_state p).

(** A plan that leads to a goal is never exhausted by the loop: the loop
    stops at the first goal on the way, with the rest of the plan unused. *)
Lemma run_agent_sound (fuel : nat) (plan : list Action) (s g : State) :
  run p s plan = Some g → is_goal p g = true → length plan < fuel →
  ∃ g' used rest,
    run_agent p fuel plan s = Ret (g', rest) ∧ is_goal p g' = true ∧
    plan = used ++ rest ∧ run p s used = Some g'.
Proof.
  revert plan s. induction fuel as [|fuel IH]; intros plan s Hrun Hg Hlen;
    [lia|].
  simpl. destruct (is_goal p s) eqn:Hs.
  { exists s, [], plan. by split_and!. }
  destruct plan as [|a plan]; simpl in *.
  { injection Hrun as ->. congruence. }
  destruct (do_action p s a) as [s'|] eqn:Hdo; [|done].
  destruct (IH plan s' Hrun Hg) as (g' & used & rest & Hra & Hg' & -> & Hu);
    [lia|].
  exists g', (a :: used), rest. split_and!; [done..|]. simpl. by rewrite Hdo.
Qed.

(** When the end of the plan is the first goal on its way, the loop uses
    the whole plan. *)
Lemma run_agent_whole_plan (fuel : nat) (plan : list Action) (s : State) :
  stops_at_first_goal p s plan → length plan < fuel →
  ∃ g, run_agent p fuel plan s = Ret (g, []) ∧ is_goal p g = true ∧
       run p s plan = Some g.
Proof.
  revert plan s. induction fuel as [|fuel IH]; intros plan s Hstop Hlen;
    [lia|].
  destruct plan as [|a plan]; simpl in *.
  { rewrite Hstop. by exists s. }
  destruct Hstop as [-> Hstop].
  destruct (do_action p s a) as [s'|] eqn:Hdo; [|done].
  apply IH; [done|lia].
Qed.

Lemma stops_at_first_goal_snoc (s s' g : State) (a : Action)
    (plan : list Action) :
  run p s plan = Some s' → is_goal p s' = false →
  (∀ plan1 plan2 x, plan = plan1 ++ plan2 → run p s plan1 = Some x →
                    is_goal p x = false) →
  do_action p s' a = Some g → is_goal p g = true →
  stops_at_first_goal p s (plan ++ [a]).
Proof.
  revert s. induction plan as [|b plan IH]; intros s Hrun Hs' Hpre Hdo Hg;
    simpl in *.
  - injection Hrun as ->. rewrite Hdo. by split.
  - split; [by apply (Hpre [] (b :: plan) s)|].
    destruct (do_action p s b) as [s1|] eqn:Hb; [|done].
    apply IH; auto. intros plan1 plan2 x -> Hx.
    apply (Hpre (b :: plan1) plan2 x); [done|]. simpl. by rewrite Hb.
Qed.

End AgentProps.

(** ** The path of a depth-first plan *)

Section DfsPath.
Context {State : Type} `{Countable State}.
Variable p : Problem State.

Abbreviation init := (initial_state p).

Lemma dfs_for_path (fuel : nat) (s : State) (steps actions : list Action)
    (taken : gset State) (res : option (list Action) * gset State) :
  (∀ s' steps' taken' res',
     dfs p fuel s' steps' taken' = Ret res' →
     ∀ plan, res'.1 = Some plan →
       ∃ suffix, plan = steps' ++ suffix ∧ stops_at_first_goal p s' suffix ∧
         NoDup (states_along p s' suffix) ∧
         ∀ x, x ∈ states_along p s' suffix → x ∉ taken') →
  is_goal p s = false →
  dfs_for p (dfs p fuel) s steps actions taken = Ret res →
  ∀ plan, res.1 = Some plan →
    ∃ suffix, plan = steps ++ suffix ∧ stops_at_first_goal p s suffix ∧
      NoDup (states_along p s suffix) ∧
      ∀ x, x ∈ states_along p s suffix → x ∉ taken.
Proof.
  intros Hrec Hs. revert taken.
  induction actions as [|a actions IH]; intros taken; simpl.
  { intros [= <-] plan [=]. }
  destruct (do_action p s a) as [s'|] eqn:Hdo; [|done].
  destruct (bool_decide (s' ∉ taken) && (length steps <? 45)) eqn:Hguard;
    [|by apply IH].
  apply andb_prop in Hguard as [Hnew%bool_decide_eq_true _].
  destruct (dfs p fuel s' (steps ++ [a]) ({[s']} ∪ taken))
    as [[route taken2]| |] eqn:Hcall; [|done..].
  pose proof (dfs_post_holds p _ _ _ _ _ Hcall) as [Hsub _]. simpl in Hsub.
  destruct (truthy route) eqn:Htruthy.
  - intros [= <-] plan Hplan. simpl in Hplan.
    destruct (Hrec _ _ _ _ Hcall plan Hplan)
      as (suffix & -> & Hstop & Hnd & Hfresh).
    exists (a :: suffix). rewrite <- app_assoc. simpl. rewrite Hdo.
    split_and!; [done..| |].
    + constructor; [|done]. intros Hin. apply (Hfresh _ Hin). set_solver.
    + intros x [->|Hx]%elem_of_cons; [done|].
      intros Hin. apply (Hfresh _ Hx). set_solver.
  - intros Hrest plan Hplan.
    destruct (IH _ Hrest plan Hplan) as (suffix & -> & Hstop & Hnd & Hfresh).
    exists suffix. split_and!; [done..|].
    intros x Hx Hin. apply (Hfresh x Hx). set_solver.
Qed.

Lemma dfs_path (fuel : nat) (s : State) (steps : list Action)
    (taken : gset State) (res : option (list Action) * gset State) :
  dfs p fuel s steps taken = Ret res →
  ∀ plan, res.1 = Some plan →
    ∃ suffix, plan = steps ++ suffix ∧ stops_at_first_goal p s suffix ∧
      NoDup (states_along p s suffix) ∧
      ∀ x, x ∈ states_along p s suffix → x ∉ taken.
Proof.
  revert s steps taken res.
  induction fuel as [|fuel IH]; intros s steps taken res; simpl; [done|].
  destruct (is_goal p s) eqn:Hgoal.
  - intros [= <-] plan [= <-]. exists []. rewrite app_nil_r. simpl.
    split_and!; [done..|constructor|]. by intros x ?%elem_of_nil.
  - by apply dfs_for_path.
Qed.

(** X1.  The plan returned by DFS goes through pairwise distinct states,
    none of them a goal before the last: it never comes back to a state,
    the initial one included, and its end is the first goal on its way.
    The loop that runs the agent therefore uses the whole plan and stops
    in the goal the plan leads to. *)
Theorem dfs_plan_simple_path (fuel : nat) (plan : list Action) :
  DFSAgent p fuel = Ret (Some plan) →
  stops_at_first_goal p init plan ∧
  NoDup (init :: states_along p init plan) ∧
  ∀ fuel', length plan < fuel' →
    ∃ g, run_agent p fuel' plan init = Ret (g, []) ∧ is_goal p g = true ∧
         run p init plan = Some g.
Proof.
  unfold DFSAgent.
  destruct (dfs p fuel init [] {[init]}) as [[route taken]| |] eqn:Hdfs;
    [|done..].
  intros [= ->].
  destruct (dfs_path _ _ _ _ _ Hdfs plan eq_refl)
    as (suffix & Heq & Hstop & Hnd & Hfresh).
  simpl in Heq. subst suffix. split_and!; [done| |].
  - constructor; [|done]. intros Hin. apply (Hfresh _ Hin). set_solver.
  - intros fuel' Hlen. by apply run_agent_whole_plan.
Qed.

End DfsPath.

(** ** What the entries of the A* queue record *)

Section AstarEntries.
Context {State : Type} `{Countable State}.
Variable p : Problem State.

Abbreviation init := (initial_state p).

Lemma plan_cost_snoc (s s' : State) (plan : list Action) (a : Action) :
  run p s plan = Some s' →
  plan_cost p s (plan ++ [a]) = plan_cost p s plan + action_cost p s' a.
Proof.
  revert s. induction plan as [|b plan IH]; intros s; simpl.
  - intros [= ->]. destruct (do_action p s' a); lia.
  - destruct (do_action p s b) as [s1|]; [|done]. intros Hrun.
    rewrite (IH _ Hrun). lia.
Qed.

Lemma states_along_snoc (s s' g : State) (plan : list Action) (a : Action) :
  run p s plan = Some s' → do_action p s' a = Some g →
  states_along p s (plan ++ [a]) = states_along p s plan ++ [g].
Proof.
  revert s. induction plan as [|b plan IH]; intros s; simpl.
  - intros [= ->] ->. done.
  - destruct (do_action p s b) as [s1|]; [|done]. intros Hrun Hdo.
    by rewrite (IH _ Hrun Hdo).
Qed.

Lemma through_nongoal_snoc (s s' : State) (plan : list Action) (a : Action) :
  through_nongoal p s plan → run p s plan = Some s' →
  is_goal p s' = false → is_Some (do_action p s' a) →
  through_nongoal p s (plan ++ [a]).
Proof.
  revert s. induction plan as [|b plan IH]; intros s; simpl.
  - intros _ [= ->] Hg [g ->]. done.
  - intros [Hs Hthrough]. destruct (do_action p s b) as [s1|]; [|done].
    intros Hrun Hg Hdo. split; [done|]. by apply IH.
Qed.

Lemma through_nongoal_stops (s g : State) (plan : list Action) :
  through_nongoal p s plan → run p s plan = Some g → is_goal p g = true →
  stops_at_first_goal p s plan.
Proof.
  revert s. induction plan as [|b plan IH]; intros s; simpl.
  - by intros _ [= ->].
  - intros [Hs Hthrough]. destruct (do_action p s b) as [s1|]; [|done].
    intros Hrun Hg. split; [done|]. by apply IH.
Qed.

(** The [for] loop, for the entry [e] taken from the queue. *)
Lemma astar_for_entries (e : entry State) (actions : list Action)
    (q : list (entry State)) (T : gset State) q' store' :
  e_taken e = 0 →
  reaches p init (e_route e) (e_state e) →
  is_goal p (e_state e) = false →
  e_action_costs e = plan_cost p init (e_route e) →
  through_nongoal p init (e_route e) →
  NoDup (init :: states_along p init (e_route e)) →
  (∀ x, x ∈ states_along p init (e_route e) → x ∈ T) →
  init ∈ T →
  (∀ a, a ∈ actions → a ∈ available_actions p (e_state e)) →
  astar_entries_inv p (AstarState q [T] 0) →
  astar_for p e actions q [T] = Ret (q', store') →
  ∃ T', store' = [T'] ∧ T ⊆ T' ∧
        length q' + size T = length q + size T' ∧
        astar_entries_inv p (AstarState q' [T'] 0).
Proof.
  intros Href [Hlegal Hrun] Hgoal Hcost Hthrough Hpath HpathT Hinit.
  revert q T HpathT Hinit.
  induction actions as [|a actions IH]; intros q T HpathT Hinit Hav Hinv; simpl.
  { intros [= <- <-]. exists T. by split_and!. }
  destruct (do_action p (e_state e) a) as [s|] eqn:Hdo; [|done].
  assert (Hav' : ∀ a', a' ∈ actions → a' ∈ available_actions p (e_state e))
    by (intros; apply Hav; by right).
  rewrite Href. unfold deref at 1. simpl.
  case_bool_decide as Hnew; [|by apply IH].
  unfold set_add, deref, put. simpl. intros Hfor.
  destruct Hinv as [Hnd Hin Hreach Hcosts Hpaths]. simpl in *.
  unfold deref in Hin, Hreach, Hpaths. simpl in *.
  apply IH in Hfor as (T' & -> & Hsub & Hlen & Hinv'); auto.
  - exists T'. split_and!; [done|set_solver| |done].
    rewrite length_app in Hlen. simpl in Hlen.
    rewrite size_union, size_singleton in Hlen by set_solver. lia.
  - intros x Hx. apply elem_of_union. right. by apply HpathT.
  - set_solver.
  - split; simpl; unfold deref; simpl.
    + unfold queued_states in *. rewrite fmap_app. apply list.NoDup_app.
      split_and!; [done| |apply NoDup_singleton].
      intros x (y & -> & Hy)%list_elem_of_fmap Hx%list_elem_of_singleton.
      simpl in Hx. apply Hnew. rewrite <- Hx. by apply Hin.
    + intros x [Hx| ->%list_elem_of_singleton]%elem_of_app; simpl;
        [|set_solver]. apply elem_of_union. right. by apply Hin.
    + intros s' [->%elem_of_singleton|Hs']%elem_of_union; [|by apply Hreach].
      exists (e_route e ++ [a]). eapply reaches_snoc; [by split| |done].
      apply Hav. by left.
    + intros x [Hx| ->%list_elem_of_singleton]%elem_of_app; [by apply Hcosts|].
      simpl. split; [|done]. rewrite (plan_cost_snoc _ _ _ _ Hrun). lia.
    + intros x [Hx| ->%list_elem_of_singleton]%elem_of_app.
      * destruct (Hpaths x Hx) as (? & ? & Hsubx). split_and!; [done..|].
        intros y Hy. apply elem_of_union. right. by apply Hsubx.
      * simpl. rewrite (states_along_snoc _ _ _ _ _ Hrun Hdo).
        split_and!.
        -- apply through_nongoal_snoc with (e_state e); by eauto.
        -- rewrite app_comm_cons. apply list.NoDup_app.
           split_and!; [done| |apply NoDup_singleton].
           intros x Hx ->%list_elem_of_singleton. apply Hnew.
           apply elem_of_cons in Hx as [->|Hx]; [done|by apply HpathT].
        -- intros x [Hx| ->%list_elem_of_singleton]%elem_of_app;
             [|set_solver]. apply elem_of_union. right. by apply HpathT.
Qed.

Lemma astar_step_entries (st st' : astar_state) :
  astar_inv p st → astar_entries_inv p st → astar_step p st = inr st' →
  astar_entries_inv p st' ∧
  length (queue st') + 1 + size (deref (store st) 0)
  = length (queue st) + size (deref (store st') 0) ∧
  deref (store st) 0 ⊆ deref (store st') 0.
Proof.
  intros Hinv Hent. unfold astar_step.
  destruct (get (queue st)) as [[e rest]|] eqn:Hget; [|done].
  destruct (is_goal p (e_state e)) eqn:Hgoal; [done|].
  destruct (astar_for p e (available_actions p (e_state e)) rest (store st))
    as [[q' store']| |] eqn:Hfor; [|done..].
  intros [= <-]. simpl.
  destruct (ai_store p _ Hinv) as (T & Hstore & HinitT & _).
  rewrite Hstore in Hfor |- *.
  pose proof (get_Some _ _ _ Hget) as Hmem.
  pose proof (get_perm _ _ _ Hget) as Hperm.
  assert (He : e ∈ queue st) by (apply Hmem; by left).
  destruct Hent as [Hnd Hin Hreach Hcosts Hpaths].
  rewrite Hstore in Hin, Hreach, Hpaths. unfold deref in *. simpl in *.
  destruct (Hpaths e He) as (Hthrough & Hpath & HpathT).
  apply (astar_for_entries e) in Hfor
    as (T' & -> & Hsub & Hlen & Hinv'); auto.
  - split_and!; [| |done].
    + by rewrite (ai_refs p _ Hinv e He).
    + apply Permutation_length in Hperm. simpl in *. lia.
  - apply (ai_refs p _ Hinv e He).
  - apply (ai_reach p _ Hinv e He).
  - apply (Hcosts e He).
  - split; simpl; unfold deref; simpl.
    + unfold queued_states in *. rewrite Hperm in Hnd. rewrite fmap_cons in Hnd.
      by apply list.NoDup_cons in Hnd as [_ ?].
    + intros x Hx. apply Hin, Hmem. by right.
    + done.
    + intros x Hx. apply Hcosts, Hmem. by right.
    + intros x Hx. apply Hpaths, Hmem. by right.
Qed.

Lemma astar_init_entries : astar_entries_inv p (astar_init p).
Proof.
  split; simpl; unfold deref; simpl.
  - apply NoDup_singleton.
  - intros e ->%list_elem_of_singleton. set_solver.
  - intros s ->%elem_of_singleton. exists []. apply reaches_nil.
  - by intros e ->%list_elem_of_singleton.
  - intros e ->%list_elem_of_singleton. simpl.
    split_and!; [done|apply NoDup_singleton|]. by intros x ?%elem_of_nil.
Qed.

Lemma astar_reachable_entries (st : astar_state) :
  astar_reachable p st → astar_entries_inv p st.
Proof.
  induction 1 as [|st st' Hreach IH Hstep]; [apply astar_init_entries|].
  apply (astar_step_entries st st'); auto using astar_reachable_inv.
Qed.

End AstarEntries.

(** ** Results of [astar] *)

Section AstarResults.
Context {State : Type} `{Countable State}.
Variable p : Problem State.

Abbreviation init := (initial_state p).

(** A result of the loop is the result of a step taken in a state that the
    call goes through. *)
Lemma astar_loop_final (fuel : nat) (st : astar_state) r :
  astar_reachable p st → astar_loop p fuel st = Ret r →
  ∃ st', astar_reachable p st' ∧ astar_step p st' = inl (Ret r).
Proof.
  revert st. induction fuel as [|fuel IH]; intros st Hreach; simpl; [done|].
  destruct (astar_step p st) as [r'|st'] eqn:Hstep.
  - intros ->. by exists st.
  - apply IH. by eapply astar_reachable_step.
Qed.

Lemma closed_space_reaches (R : gset State) (plan : list Action) (s : State) :
  closed_space p R → reaches p init plan s → s ∈ R.
Proof.
  intros [Hinit Hclosed]. revert s.
  induction plan as [|a plan IH] using rev_ind; intros s Hr.
  - destruct Hr as [_ [= <-]]. done.
  - apply reaches_snoc_inv in Hr as (s' & Hr & Ha & Hd).
    destruct (Hclosed s' a (IH _ Hr) Ha) as (g & Hd' & Hg). congruence.
Qed.

Lemma astar_for_total (e : entry State) (actions : list Action)
    (q : list (entry State)) (store : list (gset State)) :
  (∀ a, a ∈ actions → is_Some (do_action p (e_state e) a)) →
  ∃ q' store', astar_for p e actions q store = Ret (q', store').
Proof.
  revert q store. induction actions as [|a actions IH]; intros q store Hdo;
    simpl; [by eauto|].
  destruct (Hdo a) as [s ->]; [by left|].
  case_bool_decide; apply IH; intros; apply Hdo; by right.
Qed.

(** On a closed finite space every step of the loop ends the call or makes
    the sum of the queue's length and twice the number of states not yet in
    the set smaller. *)
Lemma astar_loop_terminates (R : gset State) (fuel : nat) (st : astar_state) :
  closed_space p R → astar_reachable p st →
  length (queue st) + 2 * (size R - size (deref (store st) 0)) < fuel →
  ∃ r, astar_loop p fuel st = Ret r.
Proof.
  intros HR. revert st.
  induction fuel as [|fuel IH]; intros st Hreach Hfuel; [lia|].
  simpl. destruct (astar_step p st) as [r|st'] eqn:Hstep.
  - unfold astar_step in Hstep.
    destruct (get (queue st)) as [[e rest]|] eqn:Hget;
      [|injection Hstep as <-; eauto].
    destruct (is_goal p (e_state e)); [injection Hstep as <-; eauto|].
    destruct (astar_for_total e (available_actions p (e_state e)) rest
                (store st)) as (q' & store' & Hfor); [|by rewrite Hfor in Hstep].
    intros a Ha.
    pose proof (astar_reachable_inv p st Hreach) as Hinv.
    assert (He : e ∈ queue st) by (eapply get_Some; eauto).
    destruct (proj2 HR (e_state e) a) as (s' & -> & _); [|done|done].
    eapply closed_space_reaches; [done|]. apply (ai_reach p _ Hinv e He).
  - pose proof (astar_reachable_step p _ _ Hreach Hstep) as Hreach'.
    apply IH; [done|].
    destruct (astar_step_entries p st st') as (Hent' & Hlen & Hsub);
      [by apply astar_reachable_inv|by apply astar_reachable_entries|done|].
    assert (deref (store st') 0 ⊆ R) as HsubR.
    { intros s Hs. destruct (aj_reach p _ Hent' s Hs) as [plan Hplan].
      by eapply closed_space_reaches. }
    apply subseteq_size in Hsub, HsubR. lia.
Qed.

(** X2.  The A* frontier never holds a state twice: in every state of the
    loop the queued entries hold pairwise distinct states, all of them in
    the set, and the set holds only states within reach of the initial
    state. *)
Theorem astar_queues_each_state_once (st : astar_state) :
  astar_reachable p st →
  NoDup (queued_states (queue st)) ∧
  (∀ e, e ∈ queue st → e_state e ∈ deref (store st) 0) ∧
  (∀ s, s ∈ deref (store st) 0 → ∃ plan, reaches p init plan s).
Proof.
  intros Hent%astar_reachable_entries.
  split_and!; [apply (aj_nodup p _ Hent)|apply (aj_in p _ Hent)
              |apply (aj_reach p _ Hent)].
Qed.

(** X3.  The bookkeeping of the queued tuples is right: the accumulated
    cost of an entry is the sum of the action costs along its route, the
    route leads to its state, and its priority is that cost plus the
    heuristic of the state.  The entry taken from the queue has the least
    priority of all. *)
Theorem astar_entries_priority (st : astar_state) :
  astar_reachable p st →
  (∀ e, e ∈ queue st →
     run p init (e_route e) = Some (e_state e) ∧
     e_action_costs e = plan_cost p init (e_route e) ∧
     e_cost e = plan_cost p init (e_route e) + heuristic p (e_state e)) ∧
  (∀ e rest, get (queue st) = Some (e, rest) →
     ∀ x, x ∈ rest → e_cost e ≤ e_cost x).
Proof.
  intros Hreach. split.
  - intros e He.
    pose proof (astar_reachable_inv p st Hreach) as Hinv.
    pose proof (astar_reachable_entries p st Hreach) as Hent.
    destruct (aj_costs p _ Hent e He) as [Hg Hf].
    split_and!; [apply (ai_reach p _ Hinv e He)|done|by rewrite Hf, Hg].
  - intros e rest Hget x Hx.
    pose proof (get_least _ _ _ Hget x Hx) as Hlt.
    apply not_true_iff_false in Hlt. rewrite entry_lt_spec in Hlt. lia.
Qed.

(** X4.  The plan returned by A* goes through pairwise distinct states and
    its end is the first goal on its way, so that the loop running the
    agent uses the whole plan; the number printed is the size of a set
    holding all the states of that path, hence larger than the length of
    the plan. *)
Theorem astar_plan_simple_path (fuel : nat) (plan : list Action) (n : nat) :
  astar p fuel = Ret (Some plan, n) →
  stops_at_first_goal p init plan ∧
  NoDup (init :: states_along p init plan) ∧
  length plan < n ∧
  ∀ fuel', length plan < fuel' →
    ∃ g, run_agent p fuel' plan init = Ret (g, []) ∧ is_goal p g = true ∧
         run p init plan = Some g.
Proof.
  intros Hastar.
  apply astar_loop_final in Hastar as (st & Hreach & Hstep);
    [|apply astar_reachable_init].
  pose proof (astar_reachable_inv p st Hreach) as Hinv.
  pose proof (astar_reachable_entries p st Hreach) as Hent.
  unfold astar_step in Hstep.
  destruct (get (queue st)) as [[e rest]|] eqn:Hget; [|done].
  assert (He : e ∈ queue st) by (eapply get_Some; eauto).
  destruct (is_goal p (e_state e)) eqn:Hgoal;
    [|by destruct (astar_for p e (available_actions p (e_state e)) rest
                     (store st)) as [[??]| |]].
  injection Hstep as <- <-.
  destruct (aj_path p _ Hent e He) as (Hthrough & Hnd & Hsub).
  destruct (ai_reach p _ Hinv e He) as [_ Hrun].
  assert (Hstop : stops_at_first_goal p init (e_route e))
    by by eapply through_nongoal_stops.
  split_and!; [done..| |].
  - rewrite (ai_refs p _ Hinv e He).
    destruct (ai_store p _ Hinv) as (T & Hstore & HinitT & _).
    rewrite Hstore in Hsub |- *. unfold deref in *. simpl in *.
    assert (length (init :: states_along p init (e_route e)) ≤ size T) as Hle.
    { rewrite <- (size_list_to_set (C := gset State)) by done.
      apply subseteq_size. intros x Hx%elem_of_list_to_set.
      apply elem_of_cons in Hx as [->|Hx]; auto. }
    simpl in Hle.
    assert (length (states_along p init (e_route e)) = length (e_route e));
      [|lia].
    clear -Hrun. revert Hrun. generalize init.
    induction (e_route e) as [|a r IH]; intros s; simpl; [done|].
    destruct (do_action p s a) as [s'|]; [|done]. intros Hrun.
    simpl. by rewrite (IH _ Hrun).
  - intros fuel' Hlen. by apply run_agent_whole_plan.
Qed.

(** X5.  When A* returns [None], the number it prints is the number of
    states within reach of the initial state: the set then holds exactly
    those states. *)
Theorem astar_none_counts_reachable (fuel n : nat) :
  astar p fuel = Ret (None, n) →
  ∃ T : gset State, size T = n ∧
    ∀ s, s ∈ T ↔ ∃ plan, reaches p init plan s.
Proof.
  intros Hastar.
  apply astar_loop_final in Hastar as (st & Hreach & Hstep);
    [|apply astar_reachable_init].
  pose proof (astar_reachable_inv p st Hreach) as Hinv.
  pose proof (astar_reachable_entries p st Hreach) as Hent.
  unfold astar_step in Hstep.
  destruct (get (queue st)) as [[e rest]|] eqn:Hget.
  { destruct (is_goal p (e_state e)); [done|].
    by destruct (astar_for p e (available_actions p (e_state e)) rest
                   (store st)) as [[??]| |]. }
  injection Hstep as <-. apply get_None in Hget.
  rewrite (ai_var p _ Hinv). exists (deref (store st) 0). split; [done|].
  intros s. split; [apply (aj_reach p _ Hent)|].
  destruct (ai_store p _ Hinv) as (T & Hstore & Hinit & HT).
  rewrite Hstore. unfold deref. simpl.
  assert (Hall : ∀ x, x ∈ T → closed p T x (available_actions p x)).
  { intros x Hx. destruct (HT x Hx) as [(y & Hy & _)|[_ ?]]; [|done].
    rewrite Hget in Hy. by apply elem_of_nil in Hy. }
  intros [plan Hplan]. revert s Hplan.
  induction plan as [|a plan IH] using rev_ind; intros s Hr.
  - destruct Hr as [_ [= <-]]. done.
  - apply reaches_snoc_inv in Hr as (s' & Hr & Ha & Hd).
    destruct (Hall s' (IH _ Hr) a Ha) as (g & Hd' & Hg). congruence.
Qed.

(** X6.  On a problem with finitely many states within reach, where
    [do_action] returns normally on the offered actions, A* terminates:
    twice as many iterations as there are states always suffice.  It
    returns a plan when a goal is within reach, and [None] otherwise. *)
Theorem astar_decides_reachability (R : gset State) :
  closed_space p R →
  ∃ r, (∀ fuel, 2 * size R ≤ fuel → astar p fuel = Ret r) ∧
       (r.1 = None ↔ ∀ plan g, reaches p init plan g → is_goal p g = false).
Proof.
  intros HR.
  destruct (astar_loop_terminates R (2 * size R) (astar_init p) HR)
    as [[plan n] Hr]; [apply astar_reachable_init| |].
  { change (deref (store (astar_init p)) 0) with ({[init]} : gset State).
    change (length (queue (astar_init p))) with 1.
    assert (size ({[init]} : gset State) ≤ size R) as Hle
      by (apply subseteq_size; destruct HR; set_solver).
    rewrite size_singleton in Hle |- *. lia. }
  exists (plan, n). split.
  - intros fuel Hfuel. replace fuel with (2 * size R + (fuel - 2 * size R))
      by lia. by apply astar_loop_fuel_mono.
  - simpl. split.
    + intros ->. eapply astar_loop_complete; [apply astar_init_inv|exact Hr].
    + intros Hnone. destruct plan as [plan|]; [|done].
      apply astar_loop_sound in Hr as (g & Hreach & Hg);
        [|apply astar_init_inv].
      by rewrite (Hnone _ _ Hreach) in Hg.
Qed.

End AstarResults.

(** ** Results of [bfs] *)

Section BfsResults.
Context {State : Type} `{Countable State}.
Variable p : Problem State.

Abbreviation init := (initial_state p).

Lemma bfs_loop_final (fuel : nat) (st : bfs_state) r :
  bfs_reachable p st → bfs_loop p fuel st = r → r ≠ Timeout →
  ∃ st', bfs_reachable p st' ∧ bfs_step p st' = inl r.
Proof.
  revert st. induction fuel as [|fuel IH]; intros st Hreach; simpl.
  { by intros <-. }
  destruct (bfs_step p st) as [r'|st'] eqn:Hstep.
  - intros -> _. by exists st.
  - apply IH. by eapply bfs_reachable_step.
Qed.

Lemma bfs_reachable_sound (st : bfs_state) :
  bfs_reachable p st → bfs_sound_inv p (visited st) (bfs_taken st).
Proof.
  induction 1 as [|st st' _ IH Hstep].
  - split; simpl; [|set_solver].
    intros r s [= -> ->]%list_elem_of_singleton. apply reaches_nil.
  - unfold bfs_step in Hstep.
    destruct (visited st !! idx st) as [[r0 s0]|] eqn:Hidx; [|done].
    pose proof (bfs_for_sound p s0 r0 (available_actions p s0)
                  (visited st) (bfs_taken st)) as Hfor.
    destruct (bfs_for p s0 r0 (available_actions p s0) (visited st)
                (bfs_taken st)); [done| |done].
    injection Hstep as <-. simpl. apply Hfor; auto.
    apply IH. by eapply list_elem_of_lookup_2.
Qed.

Lemma bfs_reachable_level (st : bfs_state) :
  is_goal p init = false → bfs_reachable p st →
  bfs_level_inv p (visited st) (bfs_taken st) (idx st).
Proof.
  intros Hinit. induction 1 as [|st st' _ IH Hstep].
  - split; simpl.
    + done.
    + intros r s [= -> ->]%list_elem_of_singleton. done.
    + set_solver.
    + intros i j ei ej _ [-> <-]%list_lookup_singleton_Some
        [-> <-]%list_lookup_singleton_Some. done.
    + intros e0 e [= <-] ->%list_elem_of_singleton. simpl. lia.
    + lia.
  - unfold bfs_step in Hstep.
    destruct (visited st !! idx st) as [[r0 s0]|] eqn:Hidx; [|done].
    pose proof (bfs_for_level p (idx st) s0 r0 [] (available_actions p s0)
                  (visited st) (bfs_taken st) IH Hidx) as Hfor.
    destruct (bfs_for p s0 r0 (available_actions p s0) (visited st)
                (bfs_taken st)) as [route'|visited' taken'|e]; [done| |done].
    injection Hstep as <-. simpl.
    destruct Hfor as (Hinv' & Hidx' & Hclosed'); [by intros a Ha%elem_of_nil|].
    destruct Hinv' as [Hfirst Hng Htaken Hsorted Hbound Hclosed].
    split; auto.
    + intros e0 e He0 He.
      pose proof (Hsorted (idx st) (idx st + 1) (r0, s0) e0
                    ltac:(lia) Hidx' He0) as Hs.
      pose proof (Hbound (r0, s0) e Hidx' He) as Hb. simpl in *. lia.
    + intros j e Hj He. destruct (decide (j = idx st)) as [->|].
      * simplify_eq. done.
      * apply (Hclosed j); [lia|done].
Qed.

(** With [do_action] returning normally, the [for] loop does not fault. *)
Lemma bfs_for_no_fault (s0 : State) (r0 actions : list Action)
    (visited : list (list Action * State)) (taken : gset State) (e : exn) :
  (∀ a, a ∈ actions → is_Some (do_action p s0 a)) → visited ≠ [] →
  bfs_for p s0 r0 actions visited taken ≠ Fault e.
Proof.
  revert visited taken.
  induction actions as [|a actions IH]; intros visited taken Hdo Hne; simpl;
    [done|].
  destruct (Hdo a) as [s ->]; [by left|].
  assert (∀ a', a' ∈ actions → is_Some (do_action p s0 a'))
    by (intros; apply Hdo; by right).
  case_bool_decide; simpl.
  - destruct (is_goal p s).
    + by rewrite last_snoc.
    + apply IH; [done|]. by destruct visited.
  - destruct (is_goal p s); [|by apply IH].
    destruct (list.last visited) as [[??]|] eqn:Hlast; [done|].
    by apply last_None in Hlast.
Qed.

(** On a closed finite space the list [visited] has at most one entry more
    than there are states. *)
Lemma bfs_reachable_bounded (R : gset State) (st : bfs_state) :
  closed_space p R → bfs_reachable p st →
  length (visited st) ≤ S (size R).
Proof.
  intros HR Hreach.
  destruct (bfs_reachable_listed_once p st Hreach) as (v & Hv & Hnd & Hiff).
  pose proof (bfs_reachable_sound st Hreach) as [Hsound _].
  rewrite Hv. simpl. apply le_n_S.
  rewrite <- (length_fmap snd), <- (size_list_to_set (C := gset State))
    by done.
  apply subseteq_size. intros s Hs%elem_of_list_to_set.
  apply list_elem_of_fmap in Hs as ([r s'] & -> & Hin).
  apply (closed_space_reaches p R r); [done|].
  apply Hsound. rewrite Hv. by right.
Qed.

Lemma bfs_loop_terminates (R : gset State) (fuel : nat) (st : bfs_state) :
  closed_space p R → bfs_reachable p st →
  0 < fuel → size R + 2 ≤ idx st + fuel →
  bfs_loop p fuel st ≠ Timeout.
Proof.
  intros HR. revert st.
  induction fuel as [|fuel IH]; intros st Hreach Hpos Hfuel; [lia|].
  simpl. destruct (bfs_step p st) as [r|st'] eqn:Hstep.
  - unfold bfs_step in Hstep.
    destruct (visited st !! idx st) as [[r0 s0]|]; [|by simplify_eq].
    by destruct (bfs_for p s0 r0 (available_actions p s0) (visited st)
                   (bfs_taken st)); simplify_eq.
  - pose proof (bfs_reachable_bounded R st HR Hreach) as Hlen.
    assert (idx st < length (visited st)) as Hlt.
    { unfold bfs_step in Hstep.
      destruct (visited st !! idx st) as [[r0 s0]|] eqn:Hidx; [|done].
      by eapply lookup_lt_Some. }
    assert (idx st' = idx st + 1) as Hidx'.
    { unfold bfs_step in Hstep.
      destruct (visited st !! idx st) as [[r0 s0]|]; [|done].
      destruct (bfs_for p s0 r0 (available_actions p s0) (visited st)
                  (bfs_taken st)); [done| |done].
      by injection Hstep as <-. }
    apply IH; [by eapply bfs_reachable_step|lia..].
Qed.

(** X7.  Started in a state that is no goal, BFS returns a shortest plan:
    no sequence of offered actions leads from the initial state to a goal
    in fewer actions than the plan returned. *)
Theorem bfs_returns_shortest_plan (fuel : nat) (route : list Action) :
  is_goal p init = false → bfs p fuel = Ret route →
  (∃ g, reaches p init route g ∧ is_goal p g = true) ∧
  ∀ plan g, reaches p init plan g → is_goal p g = true →
            length route ≤ length plan.
Proof.
  intros Hinit Hbfs. split.
  - by apply bfs_sound in Hbfs as [_ ?].
  - by apply (bfs_shortest p fuel).
Qed.

(** X8.  In every state of the loop of BFS, [visited] is the entry of the
    initial state followed by one entry for each state of the set, each
    state once, and every listed route leads to the state listed with
    it. *)
Theorem bfs_visited_matches_set (st : bfs_state) :
  bfs_reachable p st →
  ∃ v, visited st = ([], init) :: v ∧ NoDup v.*2 ∧
       (∀ s, s ∈ bfs_taken st ↔ s ∈ v.*2) ∧
       ∀ r s, (r, s) ∈ visited st → reaches p init r s.
Proof.
  intros Hreach.
  destruct (bfs_reachable_listed_once p st Hreach) as (v & Hv & Hnd & Hiff).
  exists v. split_and!; [done..|]. apply (bfs_reachable_sound st Hreach).
Qed.

(** X9.  On a problem with finitely many states within reach, where
    [do_action] returns normally on the offered actions, BFS terminates
    within as many iterations as there are states, plus two.  When no goal
    is within reach it ends by raising IndexError; when one is and the
    initial state is no goal, it returns a plan. *)
Theorem bfs_on_finite_space (R : gset State) :
  closed_space p R →
  ((∀ plan g, reaches p init plan g → is_goal p g = false) →
   ∀ fuel, size R + 2 ≤ fuel → bfs p fuel = Raise IndexError) ∧
  (is_goal p init = false →
   (∃ plan g, reaches p init plan g ∧ is_goal p g = true) →
   ∃ route, ∀ fuel, size R + 2 ≤ fuel → bfs p fuel = Ret route).
Proof.
  intros HR.
  pose proof (bfs_loop_terminates R (size R + 2) (bfs_init p) HR
                (bfs_reachable_init p) ltac:(lia) ltac:(simpl; lia)) as Hterm.
  destruct (bfs_loop_final (size R + 2) (bfs_init p) _
              (bfs_reachable_init p) eq_refl Hterm) as (st & Hreach & Hstep).
  assert (Hmono : ∀ fuel, size R + 2 ≤ fuel →
            bfs p fuel = bfs p (size R + 2)).
  { intros fuel Hfuel. replace fuel with (size R + 2 + (fuel - (size R + 2)))
      by lia. by apply bfs_loop_fuel_mono. }
  assert (Hcases : (∃ route, bfs p (size R + 2) = Ret route) ∨
            (bfs p (size R + 2) = Raise IndexError ∧
             visited st !! idx st = None)).
  { unfold bfs in *. destruct (bfs_loop p (size R + 2) (bfs_init p))
      as [route|e|] eqn:Hres; [by eauto| |done].
    right. unfold bfs_step in Hstep.
    destruct (visited st !! idx st) as [[r0 s0]|] eqn:Hidx;
      [|by injection Hstep as <-].
    exfalso.
    pose proof (bfs_for_no_fault s0 r0 (available_actions p s0) (visited st)
                  (bfs_taken st)) as Hnf.
    destruct (bfs_for p s0 r0 (available_actions p s0) (visited st)
                (bfs_taken st)) as [?|??|e']; [done..|].
    apply (Hnf e'); [|intros Hnil; by rewrite Hnil in Hidx|done].
    intros a Ha. destruct (proj2 HR s0 a) as (s' & -> & _); [|done|done].
    apply (closed_space_reaches p R r0); [done|].
    apply (bfs_reachable_sound st Hreach). by eapply list_elem_of_lookup_2. }
  split.
  - intros Hnone fuel Hfuel. rewrite (Hmono fuel Hfuel).
    destruct Hcases as [[route Hroute]|[? _]]; [|done].
    by apply bfs_unreachable_never_returns in Hroute.
  - intros Hinit (plan & g & Hplan & Hg).
    destruct Hcases as [[route Hroute]|[_ Hend]].
    { exists route. intros fuel Hfuel. by rewrite (Hmono fuel Hfuel). }
    exfalso. pose proof (bfs_reachable_level st Hinit Hreach) as Hinv.
    apply lookup_ge_None in Hend.
    assert (Hin : ∀ plan s, reaches p init plan s →
              ∃ r, (r, s) ∈ visited st).
    { clear plan g Hplan Hg.
      induction plan as [|a plan IH] using rev_ind; intros s Hr.
      - destruct Hr as [_ [= <-]]. exists [].
        eapply list_elem_of_lookup_2, (inv_first p _ _ _ Hinv).
      - apply reaches_snoc_inv in Hr as (s1 & Hr & Ha & Hd).
        destruct (IH _ Hr) as [r1 Hin1].
        apply list_elem_of_lookup_1 in Hin1 as [j Hj].
        pose proof (lookup_lt_Some _ _ _ Hj) as Hlt.
        destruct (inv_closed p _ _ _ Hinv j (r1, s1) ltac:(lia) Hj a Ha)
          as (s' & r' & Hd' & Hin' & _).
        simpl in *. simplify_eq. by exists r'. }
    destruct (Hin plan g Hplan) as [r Hr].
    by rewrite (inv_nongoal p _ _ _ Hinv _ _ Hr) in Hg.
Qed.

End BfsResults.

(** ** Depth-first search on small spaces *)

Section DfsSmall.
Context {State : Type} `{Countable State}.
Variable p : Problem State.
Variable R : gset State.
Hypothesis HR : closed_space p R.
Hypothesis Hsmall : size R ≤ 45.

Abbreviation init := (initial_state p).

(** What a failed call leaves behind: the set has grown within the space,
    and each state added is no goal and has all its successors in the
    set. *)
Abbreviation dfs_failed taken taken' :=
  (taken ⊆ taken' ∧ taken' ⊆ R ∧
   ∀ x, x ∈ taken' → x ∈ taken ∨
     (is_goal p x = false ∧ closed p taken' x (available_actions p x))).

Lemma dfs_for_small (fuel : nat) (s : State) (steps done actions : list Action)
    (taken : gset State) :
  (∀ s' steps' taken',
     s' ∈ taken' → taken' ⊆ R → length steps' < size taken' →
     match dfs p fuel s' steps' taken' with
     | Ret (r, taken'') =>
         r = None → dfs_failed taken' taken'' ∧ is_goal p s' = false ∧
                    closed p taken'' s' (available_actions p s')
     | Raise _ => False
     | Timeout => True
     end) →
  s ∈ taken → taken ⊆ R → length steps < size taken →
  (∀ a, a ∈ actions → a ∈ available_actions p s) →
  closed p taken s done →
  match dfs_for p (dfs p fuel) s steps actions taken with
  | Ret (r, taken') =>
      r = None → dfs_failed taken taken' ∧ closed p taken' s (done ++ actions)
  | Raise _ => False
  | Timeout => True
  end.
Proof using HR Hsmall.
  intros Hrec. revert done taken.
  induction actions as [|a actions IH];
    intros done taken Hs HsubR Hlen Hav Hdone; simpl.
  { intros _. rewrite app_nil_r. split_and!; [done..|auto|done]. }
  assert (Hav' : ∀ a', a' ∈ actions → a' ∈ available_actions p s)
    by (intros; apply Hav; by right).
  destruct (proj2 HR s a) as (s' & Hdo & Hs'R); [by apply HsubR|apply Hav; by left|].
  rewrite Hdo.
  replace (done ++ a :: actions) with ((done ++ [a]) ++ actions)
    by (by rewrite <- app_assoc).
  assert (size taken ≤ size R) as HleR by by apply subseteq_size.
  replace (length steps <? 45) with true by (symmetry; apply Nat.ltb_lt; lia).
  rewrite andb_true_r. case_bool_decide as Hnew.
  - specialize (Hrec s' (steps ++ [a]) ({[s']} ∪ taken)).
    pose proof (dfs_post_holds p fuel s' (steps ++ [a]) ({[s']} ∪ taken))
      as Hpost.
    destruct (dfs p fuel s' (steps ++ [a]) ({[s']} ∪ taken))
      as [[route taken2]| |]; [| |done].
    + destruct (truthy route) eqn:Htruthy.
      { intros ->. done. }
      assert (route = None) as ->.
      { destruct route as [[|??]|]; [|done..].
        destruct (Hpost _ eq_refl) as [_ Hplan].
        destruct (Hplan [] eq_refl) as (? & ? & Heq & _).
        by destruct steps. }
      destruct Hrec as ((Hsub1 & Hsub2 & Hcl) & Hg' & Hcl'); [set_solver| | |done|].
      { intros x [->%elem_of_singleton|?]%elem_of_union; auto. }
      { rewrite size_union, size_singleton, length_app by set_solver.
        simpl. lia. }
      specialize (IH (done ++ [a]) taken2).
      destruct (dfs_for p (dfs p fuel) s steps actions taken2)
        as [[r taken']| |]; [| |done].
      * intros Hr. destruct IH as ((Hsub3 & Hsub4 & Hcl3) & Hcl4); auto.
        -- set_solver.
        -- apply subseteq_size in Hsub1.
           rewrite size_union, size_singleton in Hsub1 by set_solver. lia.
        -- intros a' [Ha' | ->%list_elem_of_singleton]%elem_of_app.
           ++ eapply closed_mono; [|exact Hdone|exact Ha']. set_solver.
           ++ exists s'. split; [done|set_solver].
        -- split_and!; [set_solver|done| |done].
           intros x Hx. destruct (Hcl3 x Hx) as [Hx2|?]; [|by right].
           destruct (Hcl x Hx2) as [[->%elem_of_singleton|?]%elem_of_union|[??]].
           ++ right. split; [done|]. by eapply closed_mono.
           ++ by left.
           ++ right. split; [done|]. by eapply closed_mono.
      * apply IH; auto.
        -- set_solver.
        -- apply subseteq_size in Hsub1.
           rewrite size_union, size_singleton in Hsub1 by set_solver. lia.
        -- intros a' [Ha' | ->%list_elem_of_singleton]%elem_of_app.
           ++ eapply closed_mono; [|exact Hdone|exact Ha']. set_solver.
           ++ exists s'. split; [done|set_solver].
    + by apply Hrec; [set_solver| |
        rewrite size_union, size_singleton, length_app by set_solver;
        simpl; lia];
        intros x [->%elem_of_singleton|?]%elem_of_union; auto.
  - apply IH; auto.
    intros a' [Ha' | ->%list_elem_of_singleton]%elem_of_app; [auto|].
    exists s'. by split.
Qed.

Lemma dfs_small (fuel : nat) (s : State) (steps : list Action)
    (taken : gset State) :
  s ∈ taken → taken ⊆ R → length steps < size taken →
  match dfs p fuel s steps taken with
  | Ret (r, taken') =>
      r = None → dfs_failed taken taken' ∧ is_goal p s = false ∧
                 closed p taken' s (available_actions p s)
  | Raise _ => False
  | Timeout => True
  end.
Proof using HR Hsmall.
  revert s steps taken.
  induction fuel as [|fuel IH]; intros s steps taken Hs HsubR Hlen; simpl;
    [done|].
  destruct (is_goal p s) eqn:Hgoal; [done|].
  pose proof (dfs_for_small fuel s steps [] (available_actions p s) taken IH
                Hs HsubR Hlen) as Hfor.
  destruct (dfs_for p (dfs p fuel) s steps (available_actions p s) taken)
    as [[r taken']| |]; [| |done].
  - intros Hr. destruct Hfor as [? ?]; auto.
    by intros a ?%elem_of_nil.
  - apply Hfor; auto. by intros a ?%elem_of_nil.
Qed.

(** X10.  On a problem with at most 45 states within reach, where
    [do_action] returns normally on the offered actions, the depth bound
    never cuts a branch and DFS is complete: it returns a plan when a goal
    is within reach, and [None] only when none is. *)
Theorem dfs_complete_on_small_space :
  ∃ r, (∀ fuel, 46 ≤ fuel → DFSAgent p fuel = Ret r) ∧
       (r = None ↔ ∀ plan g, reaches p init plan g → is_goal p g = false).
Proof using HR Hsmall.
  pose proof (dfs_small 46 init [] {[init]}) as Hdfs.
  pose proof (dfs_no_timeout p 46 init [] {[init]}) as Hno.
  pose proof (dfs_post_holds p 46 init [] {[init]}) as Hpost.
  assert (Hfuel : ∀ fuel, 46 ≤ fuel →
            dfs p fuel init [] {[init]} = dfs p 46 init [] {[init]}).
  { intros fuel Hfuel. apply dfs_fuel_irrelevant; simpl; lia. }
  destruct (dfs p 46 init [] {[init]}) as [[r taken']| |] eqn:Hres.
  - exists r. split.
    { intros fuel Hle. unfold DFSAgent. by rewrite (Hfuel fuel Hle). }
    split.
    + intros ->.
      destruct Hdfs as ((Hsub & _ & Hcl) & Hg & Hclinit);
        [set_solver|destruct HR; set_solver
        |rewrite size_singleton; simpl; lia|done|].
      assert (Hall : ∀ x, x ∈ taken' →
                is_goal p x = false ∧
                closed p taken' x (available_actions p x)).
      { intros x Hx. destruct (Hcl x Hx) as [->%elem_of_singleton|?]; auto. }
      assert (Hin : ∀ plan g, reaches p init plan g → g ∈ taken').
      { induction plan as [|a plan IHp] using rev_ind; intros g Hr.
        - destruct Hr as [_ [= <-]]. set_solver.
        - apply reaches_snoc_inv in Hr as (s' & Hr & Ha & Hd).
          destruct (Hall s' (IHp _ Hr)) as [_ Hc].
          destruct (Hc a Ha) as (g' & Hd' & Hg'). congruence. }
      intros plan g Hr. by apply Hall, (Hin plan).
    + intros Hnone. destruct r as [plan|]; [|done].
      destruct (Hpost _ eq_refl) as [_ Hplan].
      destruct (Hplan plan eq_refl) as (suffix & g & Heq & Hr & Hg & _).
      by rewrite (Hnone _ _ Hr) in Hg.
  - exfalso. apply Hdfs; [set_solver|destruct HR; set_solver|].
    rewrite size_singleton. simpl. lia.
  - exfalso. apply Hno; simpl; [lia..|done].
Qed.

End DfsSmall.

(** ** The loop on a breadth-first plan *)

Section BfsAgent.
Context {State : Type} `{Countable State}.
Variable p : Problem State.

Abbreviation init := (initial_state p).

(** A plan that no plan to a goal is shorter than ends at the first goal
    on its way. *)
Lemma shortest_stops_at_first_goal (s g : State) (plan : list Action) :
  reaches p s plan g → is_goal p g = true →
  (∀ plan' g', reaches p s plan' g' → is_goal p g' = true →
               length plan ≤ length plan') →
  stops_at_first_goal p s plan.
Proof.
  revert s. induction plan as [|a plan IH]; intros s [Hl Hr] Hg Hmin;
    simpl in *.
  - by injection Hr as ->.
  - destruct Hl as [Ha Hl]. split.
    { destruct (is_goal p s) eqn:Hs; [|done].
      specialize (Hmin [] s (reaches_nil p s) Hs). simpl in Hmin. lia. }
    destruct (do_action p s a) as [s'|] eqn:Hdo; [|done].
    apply IH; [done..|]. intros plan' g' Hr' Hg'.
    specialize (Hmin (a :: plan') g' (reaches_cons p _ _ _ _ _ Ha Hdo Hr') Hg').
    simpl in Hmin. lia.
Qed.

(** X11.  The loop that runs a BFS agent never asks an exhausted plan for
    an action: it stops in a goal state.  When the initial state is no goal
    it uses the whole plan and stops where the plan leads. *)
Theorem bfs_agent_reaches_goal (fuel fuel' : nat) (plan : list Action) :
  bfs p fuel = Ret plan → length plan < fuel' →
  (∃ g rest, run_agent p fuel' plan init = Ret (g, rest) ∧
             is_goal p g = true) ∧
  (is_goal p init = false →
   ∃ g, run_agent p fuel' plan init = Ret (g, []) ∧ is_goal p g = true ∧
        run p init plan = Some g).
Proof.
  intros Hbfs Hlen.
  pose proof (bfs_sound p fuel plan Hbfs) as (_ & g & Hreach & Hg). split.
  - destruct (run_agent_sound p fuel' plan init g (proj2 Hreach) Hg Hlen)
      as (g' & used & rest & Hrun & Hg' & _).
    by exists g', rest.
  - intros Hinit. apply run_agent_whole_plan; [|done].
    apply (shortest_stops_at_first_goal init g); [done..|].
    by apply (bfs_shortest p fuel).
Qed.

End BfsAgent.

(** ** The vacuum world *)

(** X12.  In the vacuum world with the robot in one of the rooms, each of
    the three offered actions returns normally, keeps the number of rooms
    and leaves the robot in one of the rooms; an action with any other name
    raises. *)
Theorem vacuum_do_action_total (state : Vacuum.State) (action : Action) :
  Vacuum.wf state →
  (action ∈ Vacuum.available_actions state →
   ∃ state', Vacuum.do_action state action = Some state' ∧
             Vacuum.wf state' ∧ length state'.2 = length state.2) ∧
  (action ∉ Vacuum.available_actions state →
   Vacuum.do_action state action = None).
Proof.
  destruct state as [robot dirty]. unfold Vacuum.wf. simpl. intros Hwf.
  unfold Vacuum.available_actions. split.
  - intros Hin. decompose_list_elem_of; subst; simpl.
    + eexists. split; [done|]. split; [|done]. simpl. lia.
    + rewrite py_setitem_inbounds by done. simpl.
      eexists. split; [done|]. simpl. rewrite length_insert. by split.
    + eexists. split; [done|]. split; [|done]. simpl. lia.
  - intros Hnot. unfold Vacuum.do_action.
    destruct (String.eqb_spec action "Left") as [->|_].
    { destruct Hnot. solve_elem_of. }
    destruct (String.eqb_spec action "Suck") as [->|_].
    { destruct Hnot. solve_elem_of. }
    destruct (String.eqb_spec action "Right") as [->|_]; [|done].
    destruct Hnot. solve_elem_of.
Qed.

Lemma vacuum_goal_iff_clean (dirty : list bool) :
  negb (existsb id dirty) = true ↔ sum_list (Nat.b2n <$> dirty) = 0.
Proof.
  induction dirty as [|[] dirty IH]; csimpl; [done| |done].
  split; [done|lia].
Qed.

Lemma sum_b2n_insert_false_le (l : list bool) (k : nat) :
  sum_list (Nat.b2n <$> <[k := false]> l) ≤ sum_list (Nat.b2n <$> l).
Proof.
  revert k. induction l as [|b l IH]; intros [|k]; csimpl; try lia.
  specialize (IH k). lia.
Qed.

(** X13.  The number of dirty rooms never goes up along an action of the
    vacuum world and goes down by at most one, and it is 0 exactly in the
    goal states. *)
Theorem vacuum_heuristic_steps (state state' : Vacuum.State)
    (action : Action) :
  (Vacuum.is_goal state = true ↔ Vacuum.heuristic state = 0) ∧
  (Vacuum.do_action state action = Some state' →
   Vacuum.heuristic state' ≤ Vacuum.heuristic state ≤
     Vacuum.heuristic state' + 1).
Proof.
  destruct state as [robot dirty]. split.
  - apply vacuum_goal_iff_clean.
  - unfold Vacuum.do_action, Vacuum.heuristic. simpl.
    destruct (String.eqb action "Left"); [intros [= <-]; simpl; lia|].
    destruct (String.eqb action "Suck").
    + unfold py_setitem.
      destruct (py_index (length dirty) robot) as [k|]; [|done].
      simpl. intros [= <-]. simpl.
      pose proof (sum_b2n_insert_false dirty k).
      pose proof (sum_b2n_insert_false_le dirty k). lia.
    + destruct (String.eqb action "Right"); [|done].
      intros [= <-]. simpl. lia.
Qed.

(** ** The 8-puzzle: moves and heuristics *)

Lemma range9_bounds (i : Z) : i ∈ Puzzle.range9 ↔ (0 ≤ i ≤ 8)%Z.
Proof.
  unfold Puzzle.range9. split.
  - intros Hi. decompose_list_elem_of; subst; lia.
  - intros Hi.
    assert (∃ n : nat, n < 9 ∧ i = Z.of_nat n) as (n & Hn & ->)
      by (exists (Z.to_nat i); lia).
    do 9 (destruct n as [|n]; [solve_elem_of|]). lia.
Qed.

(** On a board of nine squares the loops of the two heuristics read every
    square without fault, and compute the sums of their weights. *)
Lemma heuristic1_tile_sum (position : Z) (board : list Z) :
  length board = 9 →
  Puzzle.heuristic1 (position, board)
  = Some (Puzzle.tile_sum Puzzle.misplaced (position, board)).
Proof.
  intros Hlen. unfold Puzzle.heuristic1, Puzzle.tile_sum.
  assert (Hall : ∀ i, i ∈ Puzzle.range9 → is_Some (py_getitem board i)).
  { intros i Hi%range9_bounds. rewrite py_getitem_inbounds by lia.
    apply lookup_lt_is_Some. lia. }
  revert Hall. generalize Puzzle.range9. intros l. simpl.
  generalize 0%Z at 1 3.
  induction l as [|i l IH]; intros cost Hall; simpl; [done|].
  destruct (Hall i) as [v Hv]; [by left|]. rewrite Hv. simpl.
  rewrite <- IH by (intros; apply Hall; by right). f_equal. f_equal.
  unfold Puzzle.misplaced. repeat case_bool_decide; simpl; lia.
Qed.

Lemma heuristic2_tile_sum (position : Z) (board : list Z) :
  length board = 9 →
  Puzzle.heuristic2 (position, board)
  = Some (Puzzle.tile_sum Puzzle.manhattan (position, board)).
Proof.
  intros Hlen. unfold Puzzle.heuristic2, Puzzle.tile_sum.
  assert (Hall : ∀ i, i ∈ Puzzle.range9 → is_Some (py_getitem board i)).
  { intros i Hi%range9_bounds. rewrite py_getitem_inbounds by lia.
    apply lookup_lt_is_Some. lia. }
  revert Hall. generalize Puzzle.range9. intros l. simpl.
  generalize 0%Z at 1 3.
  induction l as [|i l IH]; intros cost Hall; simpl; [done|].
  destruct (Hall i) as [v Hv]; [by left|].
  rewrite <- IH by (intros; apply Hall; by right). f_equal.
  case_bool_decide; [|done]. by rewrite Hv.
Qed.

(** Swapping the squares [position] and [target] and moving the blank's
    index to [target] changes the sum only by the weight of the number [v]
    that changes square. *)
Lemma tile_sum_move (w : Z → Z → Z) (position target v : Z)
    (board board' : list Z) :
  length board = 9 → (0 ≤ position ≤ 8)%Z → (0 ≤ target ≤ 8)%Z →
  Puzzle.swap board position target = Some board' →
  py_getitem board target = Some v →
  (Puzzle.tile_sum w (target, board') + w target v
   = Puzzle.tile_sum w (position, board) + w position v)%Z.
Proof.
  intros Hlen Hp%range9_bounds Hq%range9_bounds Hswap Hv.
  do 10 (destruct board as [|? board]; try done).
  unfold Puzzle.range9 in *.
  decompose_list_elem_of; subst;
    vm_compute in Hswap; vm_compute in Hv; simplify_eq;
    cbv -[Z.add]; lia.
Qed.

(** A listed action of a well-formed state moves the blank to an adjacent
    square of the board and swaps the two squares. *)
Lemma puzzle_legal_move (position : Z) (board : list Z) (action : Action) :
  Puzzle.wf (position, board) →
  action ∈ Puzzle.available_actions (position, board) →
  ∃ target board',
    (0 ≤ target ≤ 8)%Z ∧ Puzzle.adjacent position target ∧
    Puzzle.swap board position target = Some board' ∧
    Puzzle.do_action (position, board) action = Some (target, board') ∧
    Puzzle.wf (target, board').
Proof.
  intros Hwf Ha. pose proof Hwf as (Hp & _). simpl in Hp.
  assert (Hmod : (position `mod` 3 > 0 → 1 ≤ position)%Z ∧
                 (position `mod` 3 < 2 → position ≤ 7)%Z).
  { split; intros Hm; Z.div_mod_to_equations; lia. }
  destruct Hmod as [Hlo Hhi].
  unfold Puzzle.adjacent.
  destruct (puzzle_available_cases _ _ _ Ha)
    as [[-> Hc] | [[-> Hc] | [[-> Hc] | [-> Hc]]]].
  - destruct (puzzle_move_wf position (-1) board Hwf) as (b' & Hs & Hwf');
      [lia|].
    exists (position - 1)%Z, b'. split_and!; auto with lia.
    unfold Puzzle.do_action. simpl.
    by replace (position - 1)%Z with (position + -1)%Z by lia; rewrite Hs.
  - destruct (puzzle_move_wf position 1 board Hwf) as (b' & Hs & Hwf');
      [lia|].
    exists (position + 1)%Z, b'. split_and!; auto with lia.
    unfold Puzzle.do_action. simpl. by rewrite Hs.
  - destruct (puzzle_move_wf position (-3) board Hwf) as (b' & Hs & Hwf');
      [lia|].
    exists (position - 3)%Z, b'. split_and!; auto with lia.
    unfold Puzzle.do_action. simpl.
    by replace (position - 3)%Z with (position + -3)%Z by lia; rewrite Hs.
  - destruct (puzzle_move_wf position 3 board Hwf) as (b' & Hs & Hwf');
      [lia|].
    exists (position + 3)%Z, b'. split_and!; auto with lia.
    unfold Puzzle.do_action. simpl. by rewrite Hs.
Qed.

Lemma puzzle_reaches_wf (s g : Puzzle.State) (plan : list Action) :
  Puzzle.wf s → reaches Puzzle.PuzzleProblem s plan g → Puzzle.wf g.
Proof.
  revert s. induction plan as [|a plan IH]; intros [position board] Hwf [Hl Hr].
  - simpl in Hr. by simplify_eq.
  - simpl in Hl, Hr. destruct Hl as [Ha Hl].
    destruct (puzzle_legal_move _ _ _ Hwf Ha) as (q & b' & _ & _ & _ & Hd & Hwf').
    rewrite Hd in Hl, Hr. by apply (IH (q, b')).
Qed.

(** One move changes the sum of a [unit_step] weight by at most one. *)
Lemma tile_sum_step (w : Z → Z → Z) (s s' : Puzzle.State) (action : Action) :
  Puzzle.unit_step w → Puzzle.wf s →
  action ∈ Puzzle.available_actions s →
  Puzzle.do_action s action = Some s' →
  (Z.abs (Puzzle.tile_sum w s - Puzzle.tile_sum w s') ≤ 1)%Z.
Proof.
  intros Hw Hwf Ha Hd. destruct s as [position board].
  destruct (puzzle_legal_move _ _ _ Hwf Ha)
    as (q & b' & Hq & Hadj & Hs & Hd' & Hwf').
  rewrite Hd' in Hd. simplify_eq.
  destruct Hwf as (Hp & Hlen & _). simpl in Hp, Hlen.
  destruct (lookup_lt_is_Some_2 board (Z.to_nat q)) as [v Hv]; [lia|].
  rewrite <- py_getitem_inbounds in Hv by lia.
  pose proof (tile_sum_move w position q v board b' Hlen Hp Hq Hs Hv).
  pose proof (Hw position q v Hp Hq Hadj). lia.
Qed.

Lemma tile_sum_reaches (w : Z → Z → Z) (s g : Puzzle.State)
    (plan : list Action) :
  Puzzle.unit_step w → Puzzle.wf s →
  reaches Puzzle.PuzzleProblem s plan g →
  (Z.abs (Puzzle.tile_sum w s - Puzzle.tile_sum w g) ≤ Z.of_nat (length plan))%Z.
Proof.
  intros Hw. revert s.
  induction plan as [|a plan IH]; intros s Hwf [Hl Hr].
  - simpl in Hr. simplify_eq. simpl. lia.
  - simpl in Hl, Hr. destruct Hl as [Ha Hl].
    destruct (Puzzle.do_action s a) as [s'|] eqn:Hd; [|done].
    pose proof (tile_sum_step w s s' a Hw Hwf Ha Hd).
    assert (Hwf' : Puzzle.wf s').
    { destruct s as [position board].
      destruct (puzzle_legal_move _ _ _ Hwf Ha) as (q & b' & _ & _ & _ & Hd' & ?).
      rewrite Hd' in Hd. by simplify_eq. }
    pose proof (IH s' Hwf' (conj Hl Hr)). simpl length. lia.
Qed.

Lemma misplaced_unit_step : Puzzle.unit_step Puzzle.misplaced.
Proof.
  intros p q v _ _ _. unfold Puzzle.misplaced.
  repeat case_bool_decide; lia.
Qed.

Lemma manhattan_unit_step : Puzzle.unit_step Puzzle.manhattan.
Proof.
  intros p q v Hp%range9_bounds Hq%range9_bounds Hadj.
  unfold Puzzle.manhattan, Puzzle.adjacent, Puzzle.range9 in *.
  generalize dependent (Z.quot v 3). generalize dependent (v `mod` 3)%Z.
  intros vm vq.
  decompose_list_elem_of; subst;
    Z.quot_rem_to_equations; Z.div_mod_to_equations; lia.
Qed.

Lemma puzzle_available_intro (position : Z) (board : list Z) (action : Action) :
  (action = "Right"%string ∧ position `mod` 3 > 0)%Z ∨
  (action = "Left"%string ∧ position `mod` 3 < 2)%Z ∨
  (action = "Down"%string ∧ position > 2)%Z ∨
  (action = "Up"%string ∧ position < 6)%Z →
  action ∈ Puzzle.available_actions (position, board).
Proof.
  unfold Puzzle.available_actions. simpl.
  intros [[-> Hc] | [[-> Hc] | [[-> Hc] | [-> Hc]]]];
    repeat case_bool_decide; simpl; try lia; solve_elem_of.
Qed.

(** Swapping the same two squares again restores the board. *)
Lemma swap_swap (board board' : list Z) (i j : Z) :
  (0 ≤ i < Z.of_nat (length board))%Z →
  (0 ≤ j < Z.of_nat (length board))%Z →
  Puzzle.swap board i j = Some board' →
  Puzzle.swap board' j i = Some board.
Proof.
  intros Hi Hj Hs.
  destruct (lookup_lt_is_Some_2 board (Z.to_nat i)) as [y Hy]; [lia|].
  destruct (lookup_lt_is_Some_2 board (Z.to_nat j)) as [x Hx]; [lia|].
  rewrite (swap_inbounds board i j x y) in Hs by done. simplify_eq.
  destruct (decide (Z.to_nat i = Z.to_nat j)) as [Heq|Hne].
  - assert (i = j) as -> by lia. assert (x = y) as -> by congruence.
    rewrite list_insert_insert_eq, (list_insert_id board) by done.
    rewrite (swap_inbounds board j j y y) by done.
    by rewrite list_insert_insert_eq, list_insert_id.
  - rewrite (swap_inbounds _ j i x y).
    + rewrite list_insert_insert_eq.
      rewrite (list_insert_insert_ne _ (Z.to_nat i)) by done.
      rewrite list_insert_insert_eq.
      rewrite (list_insert_id board (Z.to_nat i)) by done.
      by rewrite list_insert_id.
    + rewrite !length_insert. lia.
    + rewrite !length_insert. lia.
    + apply list_lookup_insert_eq. rewrite length_insert. lia.
    + rewrite list_lookup_insert_ne by done.
      apply list_lookup_insert_eq. lia.
Qed.

(** The numbers on a well-formed board. *)
Lemma puzzle_wf_square (s : Puzzle.State) (i : Z) :
  Puzzle.wf s → i ∈ Puzzle.range9 →
  ∃ v, py_getitem s.2 i = Some v ∧ (0 ≤ v ≤ 8)%Z.
Proof.
  intros (_ & Hlen & _ & Hperm) Hi%range9_bounds.
  destruct (lookup_lt_is_Some_2 s.2 (Z.to_nat i)) as [v Hv]; [lia|].
  exists v. rewrite py_getitem_inbounds by lia. split; [done|].
  apply range9_bounds. unfold Puzzle.range9. rewrite <- Hperm.
  by eapply list_elem_of_lookup_2.
Qed.

(** Bounds on the sum of a non-negative weight, over any list of squares. *)
Lemma tile_fold_bounds (w : Z → Z → Z) (s : Puzzle.State) (l : list Z)
    (cost : Z) :
  let f := λ (cost : Z) (i : Z),
    if bool_decide (i ≠ s.1)
    then (cost + w i (default 0%Z (py_getitem s.2 i)))%Z else cost in
  (∀ i, i ∈ l → i ≠ s.1 → 0 ≤ w i (default 0%Z (py_getitem s.2 i)))%Z →
  (cost ≤ foldl f cost l)%Z ∧
  (foldl f cost l = cost ↔
   ∀ i, i ∈ l → i ≠ s.1 → w i (default 0%Z (py_getitem s.2 i)) = 0%Z).
Proof.
  intros f. revert cost.
  induction l as [|i l IH]; intros cost Hpos; simpl.
  { split; [lia|]. split; [|done]. intros _ i Hi. by apply elem_of_nil in Hi. }
  destruct (IH (f cost i)) as [Hle Hiff]; [intros; apply Hpos; by try right|].
  assert (Hstep : (cost ≤ f cost i)%Z).
  { unfold f. case_bool_decide; [|lia].
    pose proof (Hpos i ltac:(by left) ltac:(done)). lia. }
  split; [lia|]. split.
  - intros Heq. assert (Hfi : f cost i = cost) by lia.
    rewrite Hfi in Hiff. intros k [-> | Hk]%elem_of_cons Hne.
    + unfold f in Hfi. rewrite bool_decide_eq_true_2 in Hfi by done. lia.
    + rewrite Hfi in Heq. by apply Hiff.
  - intros Hall.
    assert (Hfi : f cost i = cost).
    { unfold f. case_bool_decide; [|done].
      rewrite (Hall i) by (done || by left). lia. }
    rewrite Hfi in *. apply Hiff. intros; apply Hall; by try right.
Qed.

Lemma tile_fold_mono (w1 w2 : Z → Z → Z) (s : Puzzle.State) (l : list Z)
    (c1 c2 : Z) :
  (∀ i, i ∈ l → i ≠ s.1 →
     w1 i (default 0%Z (py_getitem s.2 i)) ≤ w2 i (default 0%Z (py_getitem s.2 i)))%Z →
  (c1 ≤ c2)%Z →
  (foldl (λ (cost : Z) (i : Z),
            if bool_decide (i ≠ s.1)
            then (cost + w1 i (default 0%Z (py_getitem s.2 i)))%Z else cost)
         c1 l
   ≤ foldl (λ (cost : Z) (i : Z),
              if bool_decide (i ≠ s.1)
              then (cost + w2 i (default 0%Z (py_getitem s.2 i)))%Z else cost)
           c2 l)%Z.
Proof.
  revert c1 c2. induction l as [|i l IH]; intros c1 c2 Hle Hc; simpl; [done|].
  apply IH; [intros; apply Hle; by try right|].
  case_bool_decide; [|done].
  pose proof (Hle i ltac:(by left) ltac:(done)). lia.
Qed.

Lemma misplaced_nonneg (i v : Z) : (0 ≤ Puzzle.misplaced i v)%Z.
Proof. unfold Puzzle.misplaced. case_bool_decide; lia. Qed.

Lemma manhattan_nonneg (i v : Z) : (0 ≤ Puzzle.manhattan i v)%Z.
Proof. unfold Puzzle.manhattan. lia. Qed.

Lemma misplaced_zero (i v : Z) : Puzzle.misplaced i v = 0%Z ↔ v = i.
Proof. unfold Puzzle.misplaced. case_bool_decide; split; (lia || done). Qed.

Lemma manhattan_zero (i v : Z) :
  (0 ≤ i ≤ 8)%Z → (0 ≤ v ≤ 8)%Z → Puzzle.manhattan i v = 0%Z ↔ v = i.
Proof.
  intros Hi Hv. unfold Puzzle.manhattan. split.
  - intros Hz. Z.quot_rem_to_equations. Z.div_mod_to_equations. lia.
  - intros ->. lia.
Qed.

Lemma misplaced_le_manhattan (i v : Z) :
  (0 ≤ i ≤ 8)%Z → (0 ≤ v ≤ 8)%Z →
  (Puzzle.misplaced i v ≤ Puzzle.manhattan i v)%Z.
Proof.
  intros Hi Hv. pose proof (manhattan_nonneg i v).
  pose proof (manhattan_zero i v Hi Hv) as Hz.
  unfold Puzzle.misplaced. case_bool_decide; [|done].
  destruct (decide (Puzzle.manhattan i v = 0%Z)) as [Hm | Hm]; [|lia].
  apply Hz in Hm. by subst.
Qed.

(** The sum of a weight that is zero exactly for a number on its own square
    is zero exactly in the solved state. *)
Lemma tile_sum_zero_solved (w : Z → Z → Z) (s : Puzzle.State) :
  (∀ i v, 0 ≤ w i v)%Z →
  (∀ i v, (0 ≤ i ≤ 8)%Z → (0 ≤ v ≤ 8)%Z → w i v = 0%Z ↔ v = i) →
  Puzzle.wf s →
  (0 ≤ Puzzle.tile_sum w s)%Z ∧
  (Puzzle.tile_sum w s = 0%Z ↔ s = Puzzle.solved).
Proof.
  intros Hpos Hzero Hwf.
  destruct (tile_fold_bounds w s Puzzle.range9 0) as [Hle Hiff];
    [intros; apply Hpos|].
  split; [exact Hle|]. unfold Puzzle.tile_sum. rewrite Hiff. clear Hle Hiff.
  split.
  - intros Hall.
    assert (Hown : ∀ i, i ∈ Puzzle.range9 → i ≠ s.1 →
                     py_getitem s.2 i = Some i).
    { intros i Hi Hne. destruct (puzzle_wf_square s i Hwf Hi) as (v & Hv & Hb).
      specialize (Hall i Hi Hne). rewrite Hv in Hall |- *. simpl in Hall.
      assert (v = i) as ->; [|done].
      apply Hzero; [by apply range9_bounds | done | done]. }
    destruct s as [position board].
    destruct Hwf as (Hp & Hlen & Hblank & Hperm). simpl in *.
    assert (position = 0%Z) as ->.
    { destruct (decide (position = 0%Z)) as [|Hne]; [done|].
      pose proof (Hown 0%Z ltac:(by apply range9_bounds) ltac:(done)) as H0.
      rewrite py_getitem_inbounds in H0, Hblank by lia.
      assert (HND : NoDup board).
      { rewrite Hperm. compute_done. }
      pose proof (NoDup_lookup _ _ _ _ HND H0 Hblank). lia. }
    do 10 (destruct board as [|? board]; try done).
    vm_compute in Hblank.
    pose proof (Hown 1%Z ltac:(by apply range9_bounds) ltac:(done)) as H1.
    pose proof (Hown 2%Z ltac:(by apply range9_bounds) ltac:(done)) as H2.
    pose proof (Hown 3%Z ltac:(by apply range9_bounds) ltac:(done)) as H3.
    pose proof (Hown 4%Z ltac:(by apply range9_bounds) ltac:(done)) as H4.
    pose proof (Hown 5%Z ltac:(by apply range9_bounds) ltac:(done)) as H5.
    pose proof (Hown 6%Z ltac:(by apply range9_bounds) ltac:(done)) as H6.
    pose proof (Hown 7%Z ltac:(by apply range9_bounds) ltac:(done)) as H7.
    pose proof (Hown 8%Z ltac:(by apply range9_bounds) ltac:(done)) as H8.
    vm_compute in H1, H2, H3, H4, H5, H6, H7, H8.
    by simplify_eq.
  - intros -> i Hi Hne. unfold Puzzle.range9 in Hi.
    decompose_list_elem_of; subst; try done;
      (apply Hzero; [lia | vm_compute; by split | by vm_compute]).
Qed.

(** What the sum of a weight gives as a heuristic, when the weight is
    non-negative, zero exactly for a number on its own square, and changes
    by at most one between adjacent squares. *)
Lemma tile_sum_heuristic (w : Z → Z → Z) (s : Puzzle.State) :
  (∀ i v, 0 ≤ w i v)%Z →
  (∀ i v, (0 ≤ i ≤ 8)%Z → (0 ≤ v ≤ 8)%Z → w i v = 0%Z ↔ v = i) →
  Puzzle.unit_step w →
  Puzzle.wf s →
  (0 ≤ Puzzle.tile_sum w s)%Z ∧
  (Puzzle.tile_sum w s = 0%Z ↔ Puzzle.is_goal s = true) ∧
  (∀ action s',
     action ∈ Puzzle.available_actions s →
     Puzzle.do_action s action = Some s' →
     Puzzle.wf s' ∧
     (Z.abs (Puzzle.tile_sum w s - Puzzle.tile_sum w s') ≤ 1)%Z) ∧
  (∀ plan g,
     reaches Puzzle.PuzzleProblem s plan g → Puzzle.is_goal g = true →
     (Puzzle.tile_sum w s ≤ Z.of_nat (length plan))%Z).
Proof.
  intros Hpos Hzero Hstep Hwf.
  destruct (tile_sum_zero_solved w s Hpos Hzero Hwf) as [Hle Hiff].
  split; [done|]. split; [|split].
  - rewrite Hiff. unfold Puzzle.is_goal. by rewrite bool_decide_eq_true.
  - intros action s' Ha Hd. split; [|by eapply tile_sum_step].
    destruct s as [position board].
    destruct (puzzle_legal_move _ _ _ Hwf Ha) as (q & b' & _ & _ & _ & Hd' & ?).
    rewrite Hd' in Hd. by simplify_eq.
  - intros plan g Hreach Hg.
    pose proof (tile_sum_reaches w s g plan Hstep Hwf Hreach) as Hdist.
    pose proof (puzzle_reaches_wf s g plan Hwf Hreach) as Hwfg.
    destruct (tile_sum_zero_solved w g Hpos Hzero Hwfg) as [_ Hiffg].
    unfold Puzzle.is_goal in Hg. apply bool_decide_eq_true in Hg.
    apply Hiffg in Hg. lia.
Qed.

(** X14. Every move of the 8-puzzle can be undone: from a well-formed state
    a listed action succeeds, the opposite action is listed in the state it
    leads to, and doing it there gives back the state the move started
    from. *)
Theorem puzzle_moves_invertible (s : Puzzle.State) (action : Action) :
  Puzzle.wf s →
  action ∈ Puzzle.available_actions s →
  ∃ s',
    Puzzle.do_action s action = Some s' ∧
    Puzzle.opposite action ∈ Puzzle.available_actions s' ∧
    Puzzle.do_action s' (Puzzle.opposite action) = Some s.
Proof.
  destruct s as [position board]. intros Hwf Ha.
  pose proof Hwf as (Hp & Hlen & _). simpl in Hp, Hlen.
  assert (Hmod : (position `mod` 3 > 0 → 1 ≤ position)%Z ∧
                 (position `mod` 3 < 2 → position ≤ 7)%Z).
  { split; intros Hm; Z.div_mod_to_equations; lia. }
  destruct Hmod as [Hlo Hhi].
  destruct (puzzle_available_cases _ _ _ Ha)
    as [[-> Hc] | [[-> Hc] | [[-> Hc] | [-> Hc]]]].
  - destruct (puzzle_move_wf position (-1) board Hwf) as (b' & Hs & _);
      [lia|].
    replace (position + -1)%Z with (position - 1)%Z in Hs by lia.
    exists ((position - 1)%Z, b'). split_and!.
    + unfold Puzzle.do_action. simpl. by rewrite Hs.
    + apply puzzle_available_intro. right; left. split; [done|].
      Z.div_mod_to_equations. lia.
    + apply swap_swap in Hs; [|lia..].
      unfold Puzzle.do_action. simpl.
      replace (position - 1 + 1)%Z with position by lia. by rewrite Hs.
  - destruct (puzzle_move_wf position 1 board Hwf) as (b' & Hs & _);
      [lia|].
    exists ((position + 1)%Z, b'). split_and!.
    + unfold Puzzle.do_action. simpl. by rewrite Hs.
    + apply puzzle_available_intro. left. split; [done|].
      Z.div_mod_to_equations. lia.
    + apply swap_swap in Hs; [|lia..].
      unfold Puzzle.do_action. simpl.
      replace (position + 1 - 1)%Z with position by lia. by rewrite Hs.
  - destruct (puzzle_move_wf position (-3) board Hwf) as (b' & Hs & _);
      [lia|].
    replace (position + -3)%Z with (position - 3)%Z in Hs by lia.
    exists ((position - 3)%Z, b'). split_and!.
    + unfold Puzzle.do_action. simpl. by rewrite Hs.
    + apply puzzle_available_intro. do 3 right. split; [done|]. lia.
    + apply swap_swap in Hs; [|lia..].
      unfold Puzzle.do_action. simpl.
      replace (position - 3 + 3)%Z with position by lia. by rewrite Hs.
  - destruct (puzzle_move_wf position 3 board Hwf) as (b' & Hs & _);
      [lia|].
    exists ((position + 3)%Z, b'). split_and!.
    + unfold Puzzle.do_action. simpl. by rewrite Hs.
    + apply puzzle_available_intro. right; right; left. split; [done|]. lia.
    + apply swap_swap in Hs; [|lia..].
      unfold Puzzle.do_action. simpl.
      replace (position + 3 - 3)%Z with position by lia. by rewrite Hs.
Qed.

Lemma puzzle_moves_invertible_witness :
  ∃ s',
    Puzzle.do_action Puzzle.initial_state "Down" = Some s' ∧
    Puzzle.opposite "Down" ∈ Puzzle.available_actions s' ∧
    Puzzle.do_action s' (Puzzle.opposite "Down") = Some Puzzle.initial_state.
Proof.
  apply (puzzle_moves_invertible Puzzle.initial_state "Down").
  - split_and!; simpl; [lia|lia|reflexivity|reflexivity|solve_Permutation].
  - vm_compute. solve_elem_of.
Defined.

(** X15. [PuzzleProblem1.heuristic], the number of misplaced tiles.  On a
    well-formed state it returns without fault; its value is not negative,
    is zero exactly in the goal state, changes by at most one (the cost of
    an action) with every listed move, and is at most the length of every
    legal plan that leads to the goal. *)
Theorem puzzle_misplaced_heuristic (s : Puzzle.State) :
  Puzzle.wf s →
  ∃ n : Z,
    Puzzle.heuristic1 s = Some n ∧ (0 ≤ n)%Z ∧
    (n = 0%Z ↔ Puzzle.is_goal s = true) ∧
    (∀ action s',
       action ∈ Puzzle.available_actions s →
       Puzzle.do_action s action = Some s' →
       ∃ n', Puzzle.heuristic1 s' = Some n' ∧ (Z.abs (n - n') ≤ 1)%Z) ∧
    (∀ plan g,
       reaches Puzzle.PuzzleProblem s plan g → Puzzle.is_goal g = true →
       (n ≤ Z.of_nat (length plan))%Z).
Proof.
  intros Hwf.
  destruct (tile_sum_heuristic Puzzle.misplaced s misplaced_nonneg
              (λ i v _ _, misplaced_zero i v) misplaced_unit_step Hwf)
    as (Hle & Hzero & Hstep & Hadm).
  exists (Puzzle.tile_sum Puzzle.misplaced s). split_and!; try done.
  - destruct s as [position board]. apply heuristic1_tile_sum. apply Hwf.
  - intros action s' Ha Hd. destruct (Hstep action s' Ha Hd) as [Hwf' Habs].
    exists (Puzzle.tile_sum Puzzle.misplaced s'). split; [|done].
    destruct s' as [position' board']. apply heuristic1_tile_sum. apply Hwf'.
Qed.

Lemma puzzle_misplaced_heuristic_witness :
  ∃ n : Z,
    Puzzle.heuristic1 Puzzle.initial_state = Some n ∧ (0 ≤ n)%Z ∧
    (n = 0%Z ↔ Puzzle.is_goal Puzzle.initial_state = true) ∧
    (∀ action s',
       action ∈ Puzzle.available_actions Puzzle.initial_state →
       Puzzle.do_action Puzzle.initial_state action = Some s' →
       ∃ n', Puzzle.heuristic1 s' = Some n' ∧ (Z.abs (n - n') ≤ 1)%Z) ∧
    (∀ plan g,
       reaches Puzzle.PuzzleProblem Puzzle.initial_state plan g →
       Puzzle.is_goal g = true →
       (n ≤ Z.of_nat (length plan))%Z).
Proof.
  apply (puzzle_misplaced_heuristic Puzzle.initial_state).
  split_and!; simpl; [lia|lia|reflexivity|reflexivity|solve_Permutation].
Defined.

(** X16. [PuzzleProblem2.heuristic], the sum of the Manhattan distances of
    the tiles from their home squares.  On a well-formed state it returns
    without fault; its value is not negative, is zero exactly in the goal
    state, changes by at most one (the cost of an action) with every listed
    move, and is at most the length of every legal plan that leads to the
    goal. *)
Theorem puzzle_manhattan_heuristic (s : Puzzle.State) :
  Puzzle.wf s →
  ∃ n : Z,
    Puzzle.heuristic2 s = Some n ∧ (0 ≤ n)%Z ∧
    (n = 0%Z ↔ Puzzle.is_goal s = true) ∧
    (∀ action s',
       action ∈ Puzzle.available_actions s →
       Puzzle.do_action s action = Some s' →
       ∃ n', Puzzle.heuristic2 s' = Some n' ∧ (Z.abs (n - n') ≤ 1)%Z) ∧
    (∀ plan g,
       reaches Puzzle.PuzzleProblem s plan g → Puzzle.is_goal g = true →
       (n ≤ Z.of_nat (length plan))%Z).
Proof.
  intros Hwf.
  destruct (tile_sum_heuristic Puzzle.manhattan s manhattan_nonneg
              manhattan_zero manhattan_unit_step Hwf)
    as (Hle & Hzero & Hstep & Hadm).
  exists (Puzzle.tile_sum Puzzle.manhattan s). split_and!; try done.
  - destruct s as [position board]. apply heuristic2_tile_sum. apply Hwf.
  - intros action s' Ha Hd. destruct (Hstep action s' Ha Hd) as [Hwf' Habs].
    exists (Puzzle.tile_sum Puzzle.manhattan s'). split; [|done].
    destruct s' as [position' board']. apply heuristic2_tile_sum. apply Hwf'.
Qed.

Lemma puzzle_manhattan_heuristic_witness :
  ∃ n : Z,
    Puzzle.heuristic2 Puzzle.initial_state = Some n ∧ (0 ≤ n)%Z ∧
    (n = 0%Z ↔ Puzzle.is_goal Puzzle.initial_state = true) ∧
    (∀ action s',
       action ∈ Puzzle.available_actions Puzzle.initial_state →
       Puzzle.do_action Puzzle.initial_state action = Some s' →
       ∃ n', Puzzle.heuristic2 s' = Some n' ∧ (Z.abs (n - n') ≤ 1)%Z) ∧
    (∀ plan g,
       reaches Puzzle.PuzzleProblem Puzzle.initial_state plan g →
       Puzzle.is_goal g = true →
       (n ≤ Z.of_nat (length plan))%Z).
Proof.
  apply (puzzle_manhattan_heuristic Puzzle.initial_state).
  split_and!; simpl; [lia|lia|reflexivity|reflexivity|solve_Permutation].
Defined.

(** X17. On every well-formed state the Manhattan heuristic of
    [PuzzleProblem2] is at least the misplaced-tiles heuristic of
    [PuzzleProblem1]. *)
Theorem puzzle_manhattan_dominates (s : Puzzle.State) :
  Puzzle.wf s →
  ∃ n1 n2 : Z,
    Puzzle.heuristic1 s = Some n1 ∧ Puzzle.heuristic2 s = Some n2 ∧
    (n1 ≤ n2)%Z.
Proof.
  intros Hwf. destruct s as [position board].
  exists (Puzzle.tile_sum Puzzle.misplaced (position, board)),
         (Puzzle.tile_sum Puzzle.manhattan (position, board)).
  split; [apply heuristic1_tile_sum, Hwf|].
  split; [apply heuristic2_tile_sum, Hwf|].
  apply tile_fold_mono; [|done].
  intros i Hi Hne.
  destruct (puzzle_wf_square _ i Hwf Hi) as (v & Hv & Hb).
  rewrite Hv. simpl. apply misplaced_le_manhattan; [|done].
  by apply range9_bounds.
Qed.

Lemma puzzle_manhattan_dominates_witness :
  ∃ n1 n2 : Z,
    Puzzle.heuristic1 Puzzle.initial_state = Some n1 ∧
    Puzzle.heuristic2 Puzzle.initial_state = Some n2 ∧
    (n1 ≤ n2)%Z.
Proof.
  apply (puzzle_manhattan_dominates Puzzle.initial_state).
  split_and!; simpl; [lia|lia|reflexivity|reflexivity|solve_Permutation].
Defined.

(** ** The further properties on the notebooks' problems *)

Lemma vacuum_closed_space : closed_space Vacuum.VacuumProblem vacuum_states.
Proof.
  split; [compute_done|].
  intros s a Hs Ha. unfold vacuum_states in Hs.
  apply elem_of_list_to_set in Hs.
  simpl in Ha. unfold Vacuum.available_actions in Ha.
  decompose_list_elem_of; subst;
    (eexists; split; [vm_compute; reflexivity|compute_done]).
Qed.

Lemma dfs_plan_simple_path_witness :
  let plan := ["Suck"; "Right"; "Suck"]%string in
  stops_at_first_goal Vacuum.VacuumProblem Vacuum.initial_state plan ∧
  NoDup (Vacuum.initial_state ::
         states_along Vacuum.VacuumProblem Vacuum.initial_state plan) ∧
  ∀ fuel', length plan < fuel' →
    ∃ g, run_agent Vacuum.VacuumProblem fuel' plan Vacuum.initial_state
         = Ret (g, []) ∧
         is_goal Vacuum.VacuumProblem g = true ∧
         run Vacuum.VacuumProblem Vacuum.initial_state plan = Some g.
Proof.
  apply (dfs_plan_simple_path Vacuum.VacuumProblem 46).
  vm_compute. reflexivity.
Defined.

Lemma astar_queues_each_state_once_witness :
  ∃ st,
    astar_step Vacuum.VacuumProblem (astar_init Vacuum.VacuumProblem) = inr st ∧
    NoDup (queued_states (queue st)) ∧
    (∀ e, e ∈ queue st → e_state e ∈ deref (store st) 0) ∧
    (∀ s, s ∈ deref (store st) 0 →
          ∃ plan, reaches Vacuum.VacuumProblem Vacuum.initial_state plan s).
Proof.
  eexists. split; [vm_compute; reflexivity|].
  apply (astar_queues_each_state_once Vacuum.VacuumProblem).
  eapply astar_reachable_step; [apply astar_reachable_init|].
  vm_compute. reflexivity.
Defined.

Lemma astar_entries_priority_witness :
  ∃ st,
    astar_step Vacuum.VacuumProblem (astar_init Vacuum.VacuumProblem) = inr st ∧
    (∀ e, e ∈ queue st →
       run Vacuum.VacuumProblem Vacuum.initial_state (e_route e)
       = Some (e_state e) ∧
       e_action_costs e
       = plan_cost Vacuum.VacuumProblem Vacuum.initial_state (e_route e) ∧
       e_cost e
       = plan_cost Vacuum.VacuumProblem Vacuum.initial_state (e_route e)
         + heuristic Vacuum.VacuumProblem (e_state e)) ∧
    (∀ e rest, get (queue st) = Some (e, rest) →
       ∀ x, x ∈ rest → e_cost e ≤ e_cost x).
Proof.
  eexists. split; [vm_compute; reflexivity|].
  apply (astar_entries_priority Vacuum.VacuumProblem).
  eapply astar_reachable_step; [apply astar_reachable_init|].
  vm_compute. reflexivity.
Defined.

Lemma astar_plan_simple_path_witness :
  let plan := ["Suck"; "Right"; "Suck"]%string in
  stops_at_first_goal Vacuum.VacuumProblem Vacuum.initial_state plan ∧
  NoDup (Vacuum.initial_state ::
         states_along Vacuum.VacuumProblem Vacuum.initial_state plan) ∧
  length plan < 7 ∧
  ∀ fuel', length plan < fuel' →
    ∃ g, run_agent Vacuum.VacuumProblem fuel' plan Vacuum.initial_state
         = Ret (g, []) ∧
         is_goal Vacuum.VacuumProblem g = true ∧
         run Vacuum.VacuumProblem Vacuum.initial_state plan = Some g.
Proof.
  apply (astar_plan_simple_path Vacuum.VacuumProblem 6).
  vm_compute. reflexivity.
Defined.

Lemma astar_none_counts_reachable_witness :
  ∃ T : gset nat, size T = 1 ∧
    ∀ s, s ∈ T ↔ ∃ plan, reaches DeadEnd 0 plan s.
Proof.
  apply (astar_none_counts_reachable DeadEnd 2 1).
  vm_compute. reflexivity.
Defined.

Lemma astar_decides_reachability_witness :
  ∃ r,
    (∀ fuel, 2 * size vacuum_states ≤ fuel →
             astar Vacuum.VacuumProblem fuel = Ret r) ∧
    (r.1 = None ↔
     ∀ plan g, reaches Vacuum.VacuumProblem Vacuum.initial_state plan g →
               is_goal Vacuum.VacuumProblem g = false).
Proof.
  apply (astar_decides_reachability Vacuum.VacuumProblem vacuum_states).
  apply vacuum_closed_space.
Defined.

Lemma bfs_returns_shortest_plan_witness :
  let route := ["Suck"; "Right"; "Suck"]%string in
  (∃ g, reaches Vacuum.VacuumProblem Vacuum.initial_state route g ∧
        is_goal Vacuum.VacuumProblem g = true) ∧
  ∀ plan g, reaches Vacuum.VacuumProblem Vacuum.initial_state plan g →
            is_goal Vacuum.VacuumProblem g = true →
            length route ≤ length plan.
Proof.
  apply (bfs_returns_shortest_plan Vacuum.VacuumProblem 5).
  - reflexivity.
  - vm_compute. reflexivity.
Defined.

Lemma bfs_visited_matches_set_witness :
  ∃ st,
    bfs_step Vacuum.VacuumProblem (bfs_init Vacuum.VacuumProblem) = inr st ∧
    ∃ v, visited st = ([], Vacuum.initial_state) :: v ∧ NoDup v.*2 ∧
         (∀ s, s ∈ bfs_taken st ↔ s ∈ v.*2) ∧
         ∀ r s, (r, s) ∈ visited st →
                reaches Vacuum.VacuumProblem Vacuum.initial_state r s.
Proof.
  eexists. split; [vm_compute; reflexivity|].
  apply (bfs_visited_matches_set Vacuum.VacuumProblem).
  eapply bfs_reachable_step; [apply bfs_reachable_init|].
  vm_compute. reflexivity.
Defined.

Lemma bfs_on_finite_space_witness :
  (∀ fuel, size ({[0]} : gset nat) + 2 ≤ fuel →
           bfs DeadEnd fuel = Raise IndexError) ∧
  (∃ route, ∀ fuel, size vacuum_states + 2 ≤ fuel →
            bfs Vacuum.VacuumProblem fuel = Ret route).
Proof.
  split.
  - apply (proj1 (bfs_on_finite_space DeadEnd {[0]}
                    (conj (elem_of_singleton_2 0 0 eq_refl)
                          (λ s a _ Ha, False_ind _ (not_elem_of_nil a Ha))))).
    intros plan g _. reflexivity.
  - apply (proj2 (bfs_on_finite_space Vacuum.VacuumProblem vacuum_states
                    vacuum_closed_space)).
    + reflexivity.
    + exists ["Suck"; "Right"; "Suck"]%string, (1%Z, [false; false]).
      split; [solve_reaches|reflexivity].
Defined.

Lemma dfs_complete_on_small_space_witness :
  ∃ r,
    (∀ fuel, 46 ≤ fuel → DFSAgent Vacuum.VacuumProblem fuel = Ret r) ∧
    (r = None ↔
     ∀ plan g, reaches Vacuum.VacuumProblem Vacuum.initial_state plan g →
               is_goal Vacuum.VacuumProblem g = false).
Proof.
  apply (dfs_complete_on_small_space Vacuum.VacuumProblem vacuum_states).
  - apply vacuum_closed_space.
  - vm_compute. lia.
Defined.

Lemma bfs_agent_reaches_goal_witness :
  let plan := ["Suck"; "Right"; "Suck"]%string in
  (∃ g rest,
     run_agent Vacuum.VacuumProblem 4 plan Vacuum.initial_state
     = Ret (g, rest) ∧
     is_goal Vacuum.VacuumProblem g = true) ∧
  (is_goal Vacuum.VacuumProblem Vacuum.initial_state = false →
   ∃ g, run_agent Vacuum.VacuumProblem 4 plan Vacuum.initial_state
        = Ret (g, []) ∧
        is_goal Vacuum.VacuumProblem g = true ∧
        run Vacuum.VacuumProblem Vacuum.initial_state plan = Some g).
Proof.
  apply (bfs_agent_reaches_goal Vacuum.VacuumProblem 5 4).
  - vm_compute. reflexivity.
  - simpl. lia.
Defined.

Lemma vacuum_do_action_total_witness :
  (∃ state',
     Vacuum.do_action Vacuum.initial_state "Suck" = Some state' ∧
     Vacuum.wf state' ∧ length state'.2 = length Vacuum.initial_state.2) ∧
  Vacuum.do_action Vacuum.initial_state "Up" = None.
Proof.
  split.
  - apply (proj1 (vacuum_do_action_total Vacuum.initial_state "Suck"
                    ltac:(vm_compute; split; [discriminate|reflexivity]))).
    vm_compute. solve_elem_of.
  - apply (proj2 (vacuum_do_action_total Vacuum.initial_state "Up"
                    ltac:(vm_compute; split; [discriminate|reflexivity]))).
    simpl. unfold Vacuum.available_actions. intros Hin.
    decompose_list_elem_of; discriminate.
Defined.

Lemma vacuum_heuristic_steps_witness :
  (Vacuum.is_goal Vacuum.initial_state = true ↔
   Vacuum.heuristic Vacuum.initial_state = 0) ∧
  Vacuum.heuristic (0%Z, [false; true])
  ≤ Vacuum.heuristic Vacuum.initial_state
  ≤ Vacuum.heuristic (0%Z, [false; true]) + 1.
Proof.
  split.
  - apply (proj1 (vacuum_heuristic_steps Vacuum.initial_state
                    (0%Z, [false; true]) "Suck")).
  - apply (proj2 (vacuum_heuristic_steps Vacuum.initial_state
                    (0%Z, [false; true]) "Suck")).
    reflexivity.
Defined.

(** The values of the two puzzle heuristics in the initial state of the
    notebook. *)
Lemma puzzle_initial_heuristics :
  Puzzle.heuristic1 Puzzle.initial_state = Some 8%Z ∧
  Puzzle.heuristic2 Puzzle.initial_state = Some 18%Z.
Proof. split; vm_compute; reflexivity. Qed.

Lemma sum_b2n_le_length (l : list bool) :
  sum_list (Nat.b2n <$> l) ≤ length l.
Proof. induction l as [|[] l IH]; csimpl; lia. Qed.

(** X18. [VacuumProblem1.heuristic] counts the clean rooms: with the number
    of dirty rooms it adds up to the number of rooms, so it grows as rooms
    get cleaned and is largest in the goal states.  It is not admissible;
    [astar] still returns Suck, Right, Suck on it, and prints 8. *)
Theorem vacuum1_heuristic_counts_clean :
  (∀ state : Vacuum.State,
     heuristic Vacuum.VacuumProblem1 state + Vacuum.heuristic state
     = length state.2) ∧
  ¬ admissible Vacuum.VacuumProblem1 ∧
  (∀ fuel, astar Vacuum.VacuumProblem1 (7 + fuel)
           = Ret (Some ["Suck"; "Right"; "Suck"]%string, 8)).
Proof.
  split_and!.
  - intros [robot dirty]. simpl. unfold Vacuum.heuristic. simpl.
    pose proof (sum_b2n_le_length dirty). lia.
  - intros Hadm.
    specialize (Hadm (1%Z, [false; false]) [] (1%Z, [false; false])).
    assert (2 ≤ 0) as Habs; [|lia]. apply Hadm; [solve_reaches|reflexivity].
  - intros fuel. apply astar_loop_fuel_mono; [vm_compute; reflexivity|done].
Qed.
